(** * PET computation and grid-search selection: a shallow embedding

    The development embeds [pet_calculator.py] (point-in-polygon test,
    entry/exit extraction, PET of two trajectories) and the selection
    logic of [optimizer.py] and proves properties of them.

    Numbers.  Python floats are idealised as exact rationals [Q]; every
    comparison of the source is the corresponding decidable comparison on
    [Q], and equality of results is stated with [==] (equality of
    rationals as numbers).  [float('inf')] is a separate constructor.

    Objects.  The dictionaries of a trajectory are mutable and shared by
    reference, so a trajectory is a list of references into a store. *)

From Stdlib Require Import QArith Qminmax Qabs Lqa.
From stdpp Require Import base option list functions sorting gmap strings.

Local Open Scope Q_scope.

(** ** Python-level primitives *)

(** Exceptions the embedded code can raise. *)
Inductive exn : Type :=
| ValueError
| TypeError
| AttributeError
| IndexError
| UnboundLocalError.

(** Outcome of a computation that may raise. *)
Inductive result (A : Type) : Type :=
| Ok (a : A)
| Raise (e : exn).
Arguments Ok {A} a.
Arguments Raise {A} e.

#[global] Instance result_ret : MRet result := fun A a => Ok a.
#[global] Instance result_bind : MBind result := fun A B f m =>
  match m with
  | Ok a => f a
  | Raise e => Raise e
  end.

(** [except (ValueError, TypeError)]: the only handler of the source. *)
Definition is_value_or_type_error (e : exn) : bool :=
  match e with
  | ValueError | TypeError => true
  | _ => false
  end.

(** [try: body / except (ValueError, TypeError): return handler], followed
    by [rest], which runs outside the [try].  Every handler of the source
    returns from the enclosing function. *)
Definition try_except {A B} (body : result A) (handler : result B)
    (rest : A -> result B) : result B :=
  match body with
  | Ok a => rest a
  | Raise e => if is_value_or_type_error e then handler else Raise e
  end.

(** [a < b] on numbers. *)
Definition Qlt_bool (a b : Q) : bool := negb (Qle_bool b a).

(** Python's [min(a, b)] and [max(a, b)]: the first argument wins a tie. *)
Definition py_min (a b : Q) : Q := if Qlt_bool b a then b else a.
Definition py_max (a b : Q) : Q := if Qlt_bool a b then b else a.

(** ** Data model *)

(** Scalars stored under the optional keys of a point ('speed', 'id', ...)
    and the non-dictionary objects a trajectory list may hold. *)
Inductive pyval : Type :=
| VNone
| VNum (q : Q)
| VStr (s : string).

(** A trajectory point [{'time': .., 'x': .., 'y': .., ...}].  The three
    coordinate keys hold numbers when present (each may be missing);
    every other key of the dictionary lives in [tags]. *)
Record point_dict : Type := mk_point {
  f_time : option Q;
  f_x : option Q;
  f_y : option Q;
  tags : gmap string pyval
}.

(** The store of dictionary objects, addressed by identity. *)
Abbreviation loc := nat.
Abbreviation heap := (loc -> point_dict).

(** An element of a trajectory list: a reference to a dictionary, or an
    object that is not a dictionary. *)
Inductive element : Type :=
| Rec (l : loc)
| Atom (v : pyval).

Abbreviation trajectory := (list element).
Abbreviation polygon := (list (Q * Q)).

(** A float that may be [float('inf')]; a PET value is one. *)
Inductive xfloat : Type :=
| Fin (q : Q)
| PInf.

Abbreviation pet := xfloat.

(** ** [is_inside_polygon] *)

(** Locals of the manual ray-casting loop; [xinters] is unbound until its
    first assignment. *)
Record ray_state : Type := mk_ray {
  inside : bool;
  p1x : Q;
  p1y : Q;
  xinters : option Q
}.

(** Body of [for i in range(n + 1)], given [p2x, p2y = polygon_vertices[i % n]]. *)
Definition ray_step (x y : Q) (p2 : Q * Q) (st : ray_state) : result ray_state :=
  let '(p2x, p2y) := p2 in
  if Qlt_bool (py_min (p1y st) p2y) y then
    if Qle_bool y (py_max (p1y st) p2y) then
      if Qle_bool x (py_max (p1x st) p2x) then
        let xi :=
          if negb (Qeq_bool (p1y st) p2y)
          then Some ((y - p1y st) * (p2x - p1x st) / (p2y - p1y st) + p1x st)
          else xinters st in
        toggle ← (if Qeq_bool (p1x st) p2x then Ok true
                  else match xi with
                       | Some v => Ok (Qle_bool x v)
                       | None => Raise UnboundLocalError
                       end);
        Ok (mk_ray (if toggle : bool then negb (inside st) else inside st) p2x p2y xi)
      else Ok (mk_ray (inside st) p2x p2y (xinters st))
    else Ok (mk_ray (inside st) p2x p2y (xinters st))
  else Ok (mk_ray (inside st) p2x p2y (xinters st)).

Fixpoint ray_loop (x y : Q) (polygon_vertices : polygon) (n : nat)
    (indices : list nat) (st : ray_state) : result ray_state :=
  match indices with
  | [] => Ok st
  | i :: rest =>
      match polygon_vertices !! (i mod n)%nat with
      | None => Raise IndexError
      | Some p2 => st' ← ray_step x y p2 st; ray_loop x y polygon_vertices n rest st'
      end
  end.

(** The [else] branch of [is_inside_polygon]: manual ray casting. *)
Definition manual_ray_casting (point : Q * Q) (polygon_vertices : polygon) : result bool :=
  if (length polygon_vertices <? 3)%nat then Ok false
  else
    let '(x, y) := point in
    let n := length polygon_vertices in
    match polygon_vertices !! 0%nat with
    | None => Raise IndexError
    | Some (p1x0, p1y0) =>
        st ← ray_loop x y polygon_vertices n (seq 0 (n + 1)) (mk_ray false p1x0 p1y0 None);
        Ok (inside st)
    end.

Section Geometry.

(** The module-level flag set by the import of the geometry library. *)
Variable SHAPELY_AVAILABLE : bool.

(** What the library branch answers for a polygon of three or more
    vertices: [Polygon(..)], the validity repair, [contains], with the
    [except Exception] handler answering [False]. *)
Variable shapely_contains : Q * Q -> polygon -> bool.

Definition is_inside_polygon (point : Q * Q) (polygon_vertices : polygon) : result bool :=
  match polygon_vertices with
  | [] => Ok false
  | _ =>
      if SHAPELY_AVAILABLE then
        if (length polygon_vertices <? 3)%nat then Ok false
        else Ok (shapely_contains point polygon_vertices)
      else manual_ray_casting point polygon_vertices
  end.

(** ** [_get_entry_exit_times] *)

(** The nested helper [get_coords_time]. *)
Definition get_coords_time (h : heap) (point_data : element) : result ((Q * Q) * Q) :=
  match point_data with
  | Atom _ => Raise TypeError
  | Rec l =>
      match f_x (h l), f_y (h l), f_time (h l) with
      | Some x, Some y, Some t => Ok ((x, y), t)
      | _, _, _ => Raise ValueError
      end
  end.

(** The locals [entry_time], [exit_time], [currently_inside]. *)
Record scan_state : Type := mk_scan {
  entry_time : option Q;
  exit_time : option Q;
  currently_inside : bool
}.

(** How one iteration of the scanning loop ends: fall through to the next
    index, [break], or [return] from the function. *)
Inductive flow : Type :=
| Continue (st : scan_state)
| Break (st : scan_state)
| Return (r : option Q * option Q).

(** Body of [for i in range(1, len(trajectory))] with
    [prev = trajectory[i-1]] and [curr = trajectory[i]]. *)
Definition scan_pair (h : heap) (area_polygon : polygon)
    (prev curr : element) (st : scan_state) : result flow :=
  try_except
    ('(_, t_prev) ← get_coords_time h prev;
     '(p_curr_coords, t_curr) ← get_coords_time h curr;
     Ok (t_prev, p_curr_coords, t_curr))
    (Ok (Return (None, None)))
    (fun '(t_prev, p_curr_coords, t_curr) =>
       is_p_curr_inside ← is_inside_polygon p_curr_coords area_polygon;
       if negb (currently_inside st) && is_p_curr_inside then
         Ok (Continue (mk_scan
               (match entry_time st with
                | None => Some ((t_prev + t_curr) / 2)
                | Some e => Some e
                end)
               (exit_time st) true))
       else if currently_inside st && negb is_p_curr_inside then
         Ok (Break (mk_scan (entry_time st) (Some ((t_prev + t_curr) / 2)) false))
       else Ok (Continue st)).

(** The scanning loop over consecutive pairs; [prev] is the element at
    the index before the head of [rest]. *)
Fixpoint scan (h : heap) (area_polygon : polygon)
    (prev : element) (rest : trajectory) (st : scan_state) : result flow :=
  match rest with
  | [] => Ok (Continue st)
  | curr :: rest' =>
      o ← scan_pair h area_polygon prev curr st;
      match o with
      | Continue st' => scan h area_polygon curr rest' st'
      | Break st' => Ok (Break st')
      | Return r => Ok (Return r)
      end
  end.

(** Lines 126-130: an exit before the entry voids the interval. *)
Definition check_order (entry_time exit_time : option Q) : option Q * option Q :=
  match entry_time, exit_time with
  | Some e, Some x => if Qlt_bool x e then (None, None) else (Some e, Some x)
  | e, x => (e, x)
  end.

(** Lines 115-124: an exit without an entry. *)
Definition implied_entry (h : heap) (area_polygon : polygon) (trajectory : trajectory)
    (entry_time exit_time : option Q) : result (option Q * option Q) :=
  match exit_time, entry_time with
  | Some _, None =>
      match trajectory !! 0%nat with
      | None => Raise IndexError
      | Some p_first =>
          try_except
            ('(p_first_coords, t_first) ← get_coords_time h p_first;
             b ← is_inside_polygon p_first_coords area_polygon;
             Ok (b, t_first))
            (Ok (None, None))
            (fun '(b, t_first) =>
               if b : bool then Ok (check_order (Some t_first) exit_time)
               else Ok (None, None))
      end
  | _, _ => Ok (check_order entry_time exit_time)
  end.

(** Lines 112-113: a single sample that is inside. *)
Definition single_sample (h : heap) (area_polygon : polygon) (trajectory : trajectory)
    (entry_time exit_time : option Q) : result (option Q * option Q) :=
  match entry_time with
  | Some e =>
      if (length trajectory =? 1)%nat
      then implied_entry h area_polygon trajectory entry_time (Some e)
      else implied_entry h area_polygon trajectory entry_time exit_time
  | None => implied_entry h area_polygon trajectory entry_time exit_time
  end.

(** Lines 104-110: still inside when the samples end. *)
Definition finish (h : heap) (area_polygon : polygon) (trajectory : trajectory)
    (st : scan_state) : result (option Q * option Q) :=
  match currently_inside st, entry_time st, exit_time st with
  | true, Some _, None =>
      match last trajectory with
      | None => Raise IndexError
      | Some p_last =>
          try_except
            (get_coords_time h p_last)
            (Ok (entry_time st, None))
            (fun '(_, exit_time_val) =>
               single_sample h area_polygon trajectory (entry_time st) (Some exit_time_val))
      end
  | _, _, _ => single_sample h area_polygon trajectory (entry_time st) (exit_time st)
  end.

Definition _get_entry_exit_times (h : heap) (trajectory : trajectory)
    (area_polygon : polygon) : result (option Q * option Q) :=
  match trajectory, area_polygon with
  | [], _ | _, [] => Ok (None, None)
  | p0 :: rest, _ =>
      if (length area_polygon <? 3)%nat then Ok (None, None)
      else
        try_except
          ('(p_start_coords, t_start) ← get_coords_time h p0;
           b ← is_inside_polygon p_start_coords area_polygon;
           Ok (if b : bool
               then mk_scan (Some t_start) None true
               else mk_scan None None false))
          (Ok (None, None))
          (fun st0 =>
             o ← scan h area_polygon p0 rest st0;
             match o with
             | Return r => Ok r
             | Break st | Continue st => finish h area_polygon trajectory st
             end)
  end.

(** ** [calculate_pet] *)

(** [point.setdefault(k, v)] for a key held in [tags]. *)
Definition setdefault (k : string) (v : pyval) (d : point_dict) : point_dict :=
  match tags d !! k with
  | Some _ => d
  | None => mk_point (f_time d) (f_x d) (f_y d) (<[k := v]> (tags d))
  end.

(** [for point in traj_list: point.setdefault('speed', 0);
    point.setdefault('id', 'dummy')].  An element without a [setdefault]
    attribute raises; the store keeps the updates made before it. *)
Fixpoint normalize (h : heap) (traj_list : trajectory) : heap * result unit :=
  match traj_list with
  | [] => (h, Ok tt)
  | Rec l :: rest =>
      normalize (<[l := setdefault "id" (VStr "dummy")
                          (setdefault "speed" (VNum 0) (h l))]> h) rest
  | Atom _ :: _ => (h, Raise AttributeError)
  end.

(** Lines 145-161: the PET of two occupancy intervals. *)
Definition pet_of_intervals (T_veh_entry T_veh_exit T_ped_entry T_ped_exit : option Q) : pet :=
  match T_veh_entry, T_veh_exit, T_ped_entry, T_ped_exit with
  | Some ve, Some vx, Some pe, Some px =>
      let latest_entry := py_max ve pe in
      let earliest_exit := py_min vx px in
      if Qlt_bool latest_entry earliest_exit then Fin (latest_entry - earliest_exit)
      else if Qle_bool vx pe then Fin (pe - vx)
      else if Qle_bool px ve then Fin (ve - px)
      else Fin 0
  | _, _, _, _ => PInf
  end.

(** The result is the final store together with the returned PET or the
    exception that escapes. *)
Definition calculate_pet (h : heap) (vehicle_trajectory pedestrian_trajectory : trajectory)
    (encroachment_area_polygon : polygon) : heap * result pet :=
  match normalize h vehicle_trajectory with
  | (h1, Raise e) => (h1, Raise e)
  | (h1, Ok _) =>
      match normalize h1 pedestrian_trajectory with
      | (h2, Raise e) => (h2, Raise e)
      | (h2, Ok _) =>
          (h2,
           '(T_veh_entry, T_veh_exit) ←
              _get_entry_exit_times h2 vehicle_trajectory encroachment_area_polygon;
           '(T_ped_entry, T_ped_exit) ←
              _get_entry_exit_times h2 pedestrian_trajectory encroachment_area_polygon;
           Ok (pet_of_intervals T_veh_entry T_veh_exit T_ped_entry T_ped_exit))
      end
  end.

End Geometry.

(** ** [optimizer.py] *)

(** Configuration constants. *)
Definition AV_MIN_SPEED_MPS : Q := 5.
Definition AV_MAX_SPEED_MPS : Q := 15.
Definition NUM_AV_SPEED_STEPS : nat := 3.
Definition N_SIM_RUNS_PER_AV_SPEED : nat := 5.
Definition PET_CONSTRAINT_THRESHOLD : Q := 2.
Definition PROB_CONSTRAINT_SATISFIED_THRESHOLD : Q := 9 # 10.

(** [np.linspace(start, stop, num)]: [num] evenly spaced values, both
    endpoints included. *)
Definition linspace (start stop : Q) (num : nat) : list Q :=
  match num with
  | 0%nat => []
  | 1%nat => [start]
  | _ =>
      let step := (stop - start) / inject_Z (Z.of_nat (num - 1)) in
      map (fun i => start + inject_Z (Z.of_nat i) * step) (seq 0 num)
  end.

(** [np.mean] of a non-empty list. *)
Definition mean (l : list Q) : Q :=
  foldr Qplus 0 l / inject_Z (Z.of_nat (length l)).

(** Comparisons of floats that may be infinite. *)
Definition xfloat_lt (a b : xfloat) : bool :=
  match a, b with
  | Fin x, Fin y => Qlt_bool x y
  | Fin _, PInf => true
  | PInf, _ => false
  end.

Definition xfloat_eq (a b : xfloat) : bool :=
  match a, b with
  | Fin x, Fin y => Qeq_bool x y
  | PInf, PInf => true
  | _, _ => false
  end.

(** [p >= threshold] for a PET value. *)
Definition pet_ge (p : pet) (threshold : Q) : bool :=
  negb (xfloat_lt p (Fin threshold)).

(** Python's order on pairs: the first components decide unless equal. *)
Definition tuple_lt (a b : xfloat * xfloat) : bool :=
  if xfloat_eq (fst a) (fst b) then xfloat_lt (snd a) (snd b)
  else xfloat_lt (fst a) (fst b).

(** [list.sort(key=..)]: a stable sort, here by insertion; an element goes
    before the first one whose key is strictly greater. *)
Fixpoint insert_by {A} (key : A -> xfloat * xfloat) (x : A) (l : list A) : list A :=
  match l with
  | [] => [x]
  | y :: l' => if tuple_lt (key y) (key x) then y :: insert_by key x l' else x :: y :: l'
  end.

Definition sort_by {A} (key : A -> xfloat * xfloat) (l : list A) : list A :=
  foldr (insert_by key) [] l.

(** [max(iterable, key=..)]: the first element whose key is maximal. *)
Definition max_by {A} (key : A -> xfloat * xfloat) (l : list A) : option A :=
  match l with
  | [] => None
  | x :: l' =>
      Some (foldl (fun best y => if tuple_lt (key best) (key y) then y else best) x l')
  end.

(** What [run_optimizer] reports. *)
Inductive report : Type :=
| CannotRun
| OptimalFound (best_av_speed : Q) (best_traversal_time : xfloat) (best_prob_satisfaction : Q)
| NoSpeedFound (best_compromise : option (Q * Q * Q)).

(** The sort key of [eligible_speeds.sort]; entries are
    [(av_s, avg_tt, prob_cs)]. *)
Definition eligible_key (x : Q * Q * Q) : xfloat * xfloat :=
  let '(av_s, avg_tt, _) := x in
  (if negb (Qeq_bool avg_tt (-1)) then Fin avg_tt else PInf, Fin (- av_s)).

(** The key of the best-compromise [max]; entries are
    [(av_s, prob_cs, avg_tt)]. *)
Definition compromise_key (x : Q * Q * Q) : xfloat * xfloat :=
  let '(_, prob_cs, avg_tt) := x in
  (Fin prob_cs, if negb (Qeq_bool avg_tt (-1)) then Fin (- avg_tt) else PInf).

(** Lines 122-127: the entries [(av_s, avg_tt, prob_cs)] of the candidates
    that meet the target probability, in the order of the summary. *)
Fixpoint eligible_speeds (optimization_summary : list (Q * Q * Q)) : list (Q * Q * Q) :=
  match optimization_summary with
  | [] => []
  | (av_s, prob_cs, avg_tt) :: rest =>
      if Qle_bool PROB_CONSTRAINT_SATISFIED_THRESHOLD prob_cs
      then (av_s, avg_tt, prob_cs) :: eligible_speeds rest
      else eligible_speeds rest
  end.

(** Lines 117-153: the selection over the summary
    [(av_speed, prob_constraint_satisfied, avg_traversal_time)]. *)
Definition select (optimization_summary : list (Q * Q * Q)) : report :=
  let '(best_av_speed, best_traversal_time, best_prob_satisfaction) :=
    match sort_by eligible_key (eligible_speeds optimization_summary) with
    | [] => (-1, PInf, -1)
    | (av_s, avg_tt, prob_cs) :: _ => (av_s, Fin avg_tt, prob_cs)
    end in
  if negb (Qeq_bool best_av_speed (-1))
  then OptimalFound best_av_speed best_traversal_time best_prob_satisfaction
  else NoSpeedFound (max_by compromise_key optimization_summary).

Section Optimizer.

(** The import flag of the simulation interface. *)
Variable SUMO_INTERFACE_AVAILABLE : bool.

(** The simulation run: the answer [(pet1, pet2, traversal_time)] of the
    call numbered [current_sim_run_number] for an AV speed; the sampled
    pedestrian speeds and the simulator's randomness are inside it. *)
Variable execute_single_sumo_run : nat -> Q -> pet * pet * Q.

(** Whether a run meets the PET constraint (line 98). *)
Definition constraint_met (pet1 pet2 : pet) : bool :=
  pet_ge pet1 PET_CONSTRAINT_THRESHOLD && pet_ge pet2 PET_CONSTRAINT_THRESHOLD.

(** The accumulators of the inner loop. *)
Record run_acc : Type := mk_acc {
  current_sim_run_number : nat;
  run_traversal_times : list Q;
  successful_pet_constraint_runs : nat
}.

(** Body of [for i_run in range(N_SIM_RUNS_PER_AV_SPEED)]. *)
Definition run_once (av_speed : Q) (acc : run_acc) : run_acc :=
  let k := S (current_sim_run_number acc) in
  let '(pet1, pet2, traversal_time) := execute_single_sumo_run k av_speed in
  mk_acc k
    (if Qle_bool 0 traversal_time
     then run_traversal_times acc ++ [traversal_time]
     else run_traversal_times acc)
    (if constraint_met pet1 pet2
     then S (successful_pet_constraint_runs acc)
     else successful_pet_constraint_runs acc).

Fixpoint run_many (runs : nat) (av_speed : Q) (acc : run_acc) : run_acc :=
  match runs with
  | 0%nat => acc
  | S runs' => run_many runs' av_speed (run_once av_speed acc)
  end.

(** One iteration of [for av_speed in candidate_av_speeds]: the call
    counter after it and the summary entry it appends. *)
Definition evaluate_candidate (counter : nat) (av_speed : Q) : nat * (Q * Q * Q) :=
  let acc := run_many N_SIM_RUNS_PER_AV_SPEED av_speed (mk_acc counter [] 0) in
  let prob_constraint_satisfied :=
    inject_Z (Z.of_nat (successful_pet_constraint_runs acc))
    / inject_Z (Z.of_nat N_SIM_RUNS_PER_AV_SPEED) in
  let avg_traversal_time :=
    match run_traversal_times acc with
    | [] => -1
    | _ => mean (run_traversal_times acc)
    end in
  (current_sim_run_number acc, (av_speed, prob_constraint_satisfied, avg_traversal_time)).

Fixpoint summarize (counter : nat) (candidate_av_speeds : list Q) : list (Q * Q * Q) :=
  match candidate_av_speeds with
  | [] => []
  | av_speed :: rest =>
      let '(counter', entry) := evaluate_candidate counter av_speed in
      entry :: summarize counter' rest
  end.

Definition optimization_summary : list (Q * Q * Q) :=
  summarize 0 (linspace AV_MIN_SPEED_MPS AV_MAX_SPEED_MPS NUM_AV_SPEED_STEPS).

Definition run_optimizer : report :=
  if SUMO_INTERFACE_AVAILABLE then select optimization_summary else CannotRun.

End Optimizer.

(** ** Predicates on inputs *)

(** An element is a dictionary. *)
Definition is_record (e : element) : bool :=
  match e with
  | Rec _ => true
  | Atom _ => false
  end.

(** A malformed sample: not a dictionary, or a dictionary without one of
    the keys 'time', 'x', 'y'. *)
Definition is_malformed (h : heap) (e : element) : bool :=
  match e with
  | Atom _ => true
  | Rec l =>
      negb (bool_decide (is_Some (f_time (h l)))
            && bool_decide (is_Some (f_x (h l)))
            && bool_decide (is_Some (f_y (h l))))
  end.

(** The dictionary at [l] holds the sample [(t, x, y)]. *)
Definition sample_at (h : heap) (l : loc) (t x y : Q) : Prop :=
  f_time (h l) = Some t /\ f_x (h l) = Some x /\ f_y (h l) = Some y.

(** Two stores that agree on the coordinate keys of every dictionary. *)
Definition same_coords (h h' : heap) : Prop :=
  forall l, f_time (h' l) = f_time (h l) /\ f_x (h' l) = f_x (h l) /\ f_y (h' l) = f_y (h l).

(** Equality of PET values as numbers. *)
Definition pet_eq (p p' : pet) : Prop :=
  match p, p' with
  | Fin q, Fin q' => q == q'
  | PInf, PInf => True
  | _, _ => False
  end.

(** Equality of outcomes: the same exception, or equal PET values. *)
Definition outcome_eq (r r' : result pet) : Prop :=
  match r, r' with
  | Ok p, Ok p' => pet_eq p p'
  | Raise e, Raise e' => e = e'
  | _, _ => False
  end.

(** ** Derived notions used in the statements *)

(** A dictionary after the two [setdefault] calls. *)
Definition with_defaults (d : point_dict) : point_dict :=
  setdefault "id" (VStr "dummy") (setdefault "speed" (VNum 0) d).

(** The dictionaries the loop reaches: those before the first element that
    is not a dictionary. *)
Fixpoint reached_records (traj_list : trajectory) : list loc :=
  match traj_list with
  | Rec l :: rest => l :: reached_records rest
  | _ => []
  end.

(** ** Scenario data (the script's first test case) *)

Definition encroachment_area : polygon := [(0, 0); (10, 0); (10, 10); (0, 10)].

Definition sample (t x y : Q) : point_dict := mk_point (Some t) (Some x) (Some y) ∅.

(** Dictionaries 0-2 are [vehicle_traj1], 3-5 are [pedestrian_traj1]. *)
Definition scenario_store : heap := fun l =>
  match l with
  | 0%nat => sample 0 (-5) 5
  | 1%nat => sample 1 5 5
  | 2%nat => sample 2 15 5
  | 3%nat => sample 3 5 (-5)
  | 4%nat => sample 4 5 5
  | 5%nat => sample 5 5 15
  | _ => mk_point None None None ∅
  end.

Definition vehicle_traj1 : trajectory := [Rec 0; Rec 1; Rec 2].
Definition pedestrian_traj1 : trajectory := [Rec 3; Rec 4; Rec 5].

(** A library answer that is never consulted when [SHAPELY_AVAILABLE] is
    false. *)
Definition no_library : Q * Q -> polygon -> bool := fun _ _ => false.

(** A well-formed sample whose point is classified [b] by the test. *)
Definition sample_inside (SA : bool) (sc : Q * Q -> polygon -> bool)
    (h : heap) (poly : polygon) (e : element) (b : bool) : Prop :=
  exists p t, get_coords_time h e = Ok (p, t) /\ is_inside_polygon SA sc p poly = Ok b.

(** The scan meets a malformed sample: the samples before it are
    well-formed and never leave the polygon (some outside it, followed by
    some inside it). *)
Definition meets_malformed (SA : bool) (sc : Q * Q -> polygon -> bool)
    (h : heap) (poly : polygon) (traj : trajectory) : Prop :=
  exists outs ins m post,
    traj = outs ++ ins ++ m :: post
    /\ Forall (fun e => sample_inside SA sc h poly e false) outs
    /\ Forall (fun e => sample_inside SA sc h poly e true) ins
    /\ is_malformed h m = true.

(** Store for the late malformed sample: dictionary 6 is inside the
    polygon, 7 is outside, 8 has no key 'x'; the others are those of
    [scenario_store]. *)
Definition malformed_store : heap := fun l =>
  match l with
  | 6%nat => sample 0 5 5
  | 7%nat => sample 1 15 5
  | 8%nat => mk_point (Some 2) None (Some 5) ∅
  | _ => scenario_store l
  end.

Definition late_malformed_traj : trajectory := [Rec 6; Rec 7; Rec 8].

(** The library's answers on the five points of the scenario are those of
    exact geometry: (5,5) is strictly inside the square, the others are
    strictly outside. *)
Definition library_exact_on_scenario (sc : Q * Q -> polygon -> bool) : Prop :=
  sc (5, 5) encroachment_area = true
  /\ sc (-5, 5) encroachment_area = false
  /\ sc (15, 5) encroachment_area = false
  /\ sc (5, -5) encroachment_area = false
  /\ sc (5, 15) encroachment_area = false.

(** [x] does not sort after [y]. *)
Definition key_le {A : Type} (key : A -> xfloat * xfloat) (x y : A) : Prop :=
  tuple_lt (key y) (key x) = false.

(** The performance metric of a candidate is defined: it is not the
    sentinel [-1.0]. *)
Definition metric_defined (avg_tt : Q) : Prop := ~ avg_tt == -1.

(** Entry [a] ranks no later than entry [b] (entries are
    [(av_s, avg_tt, prob_cs)]): a defined metric before an undefined one,
    the smaller of two defined metrics first, and on a tie the larger
    control value first. *)
Definition ranks_no_later (a b : Q * Q * Q) : Prop :=
  let '(sa, ta, _) := a in
  let '(sb, tb, _) := b in
  (metric_defined ta /\ ~ metric_defined tb)
  \/ (metric_defined ta /\ metric_defined tb /\ ta < tb)
  \/ (((metric_defined ta /\ metric_defined tb /\ ta == tb)
       \/ (~ metric_defined ta /\ ~ metric_defined tb))
      /\ sb <= sa).

(** Simulation answers under which all three candidates fail the PET
    constraint in every run; the traversal of the junction is measured
    (3 s) at 5 and 15 m/s and never measured at 10 m/s. *)
Definition tied_runs : nat -> Q -> pet * pet * Q := fun _ av_speed =>
  if Qeq_bool av_speed 10 then (Fin 1, Fin 1, -1) else (Fin 1, Fin 1, 3).

(** ** Notions used for the further properties *)

(** The time of a well-formed sample (0 for a malformed one). *)
Definition sample_time (h : heap) (e : element) : Q :=
  match get_coords_time h e with
  | Ok (_, t) => t
  | Raise _ => 0
  end.

(** The dictionaries the two normalisation passes of [calculate_pet]
    reach: the second pass runs only when the first one completes. *)
Definition touched_records (veh ped : trajectory) : list loc :=
  reached_records veh ++ (if forallb is_record veh then reached_records ped else []).

(** An axis-aligned rectangle, vertices in the order of the default
    encroachment areas. *)
Definition rectangle (x0 y0 x1 y1 : Q) : polygon :=
  [(x0, y0); (x1, y0); (x1, y1); (x0, y1)].

(** The calls one candidate makes when [counter] calls came before it,
    the runs among them that meet the PET constraint, and the traversal
    times among them that are valid (not negative), in call order. *)
Definition run_numbers (counter : nat) : list nat :=
  seq (S counter) N_SIM_RUNS_PER_AV_SPEED.

Definition met_runs (sim : nat -> Q -> pet * pet * Q) (counter : nat) (av_speed : Q)
    : list nat :=
  List.filter (fun k => constraint_met (sim k av_speed).1.1 (sim k av_speed).1.2)
    (run_numbers counter).

Definition valid_traversals (sim : nat -> Q -> pet * pet * Q) (counter : nat)
    (av_speed : Q) : list Q :=
  List.filter (fun t => Qle_bool 0 t)
    (List.map (fun k => (sim k av_speed).2) (run_numbers counter)).

(** ** [sumo_interface.py]: [execute_single_sumo_run]

    The simulator is outside the repository: what it answers to each
    TraCI call is an input.  A call returns a value or raises; the
    source tells three kinds of exception apart by its handlers. *)

Inductive traci_exn : Type :=
| TraCIException
| FileNotFoundError
| OtherException.

Inductive call (A : Type) : Type :=
| Returns (a : A)
| Throws (e : traci_exn).
Arguments Returns {A} a.
Arguments Throws {A} e.

(** The answers to the calls one iteration of the stepping loop can make,
    in the order of the source.  An answer is read only if the call is
    made. *)
Record step_answers : Type := mk_answers {
  ans_getTime : call Q;
  ans_simulationStep : call unit;
  (* speed control: ["car_0" in traci.vehicle.getIDList()], setSpeedMode, setSpeed *)
  ans_car_listed_for_speed : call bool;
  ans_car_setSpeedMode : call unit;
  ans_car_setSpeed : call unit;
  ans_ped1_listed_for_speed : call bool;
  ans_ped1_setSpeed : call unit;
  ans_ped2_listed_for_speed : call bool;
  ans_ped2_setSpeed : call unit;
  (* collection: listed, getPosition, getLaneID *)
  ans_car_listed : call bool;
  ans_car_getPosition : call (Q * Q);
  ans_car_getLaneID : call string;
  ans_ped1_listed : call bool;
  ans_ped1_getPosition : call (Q * Q);
  ans_ped2_listed : call bool;
  ans_ped2_getPosition : call (Q * Q)
}.

Definition J2_INTERNAL_LANE_ID : string := ":J2_4_0".
Definition MAX_ENTITY_WAIT_STEPS : nat := 50.
Definition num_simulation_steps : nat := 200.

(** The locals that follow the car over the J2 segment. *)
Record j2_state : Type := mk_j2 {
  sim_time_car0_enters_j2 : Q;
  sim_time_car0_exits_j2 : Q;
  car0_on_j2_segment : bool
}.

(** The three trajectory lists and the dictionaries created for them;
    [next_loc] is the identity of the next dictionary. *)
Record collected : Type := mk_collected {
  store : heap;
  next_loc : loc;
  car0_traj : trajectory;
  ped1_traj : trajectory;
  ped2_traj : trajectory
}.

Record speed_flags : Type := mk_flags {
  car0_speed_set_attempted : bool;
  ped1_speed_set_attempted : bool;
  ped2_speed_set_attempted : bool
}.

Record run_state : Type := mk_run {
  flags : speed_flags;
  j2 : j2_state;
  data : collected
}.

(** A state together with the exception, if any, that is under way. *)
Abbreviation interrupted S := (S * option traci_exn)%type.

Definition and_then {S} (r : interrupted S) (k : S -> interrupted S) : interrupted S :=
  match r with
  | (st, None) => k st
  | (st, Some e) => (st, Some e)
  end.

(** [try: body / except traci.TraCIException: ...]: a TraCIException ends
    the block, keeping what the block did so far; any other exception
    goes on. *)
Definition except_traci {S} (r : interrupted S) : interrupted S :=
  match r with
  | (st, Some TraCIException) => (st, None)
  | _ => r
  end.

(** The commands of a speed-control block, in order. *)
Fixpoint first_thrown (commands : list (call unit)) : option traci_exn :=
  match commands with
  | [] => None
  | Returns _ :: rest => first_thrown rest
  | Throws e :: _ => Some e
  end.

(** A speed-control block (lines 129-158): the flag is set once the
    entity is listed and all commands went through. *)
Definition speed_block (step : nat) (listed : call bool) (commands : list (call unit))
    (attempted : bool) : interrupted bool :=
  if negb attempted && (step <? MAX_ENTITY_WAIT_STEPS)%nat then
    except_traci
      match listed with
      | Throws e => (attempted, Some e)
      | Returns false => (attempted, None)
      | Returns true =>
          match first_thrown commands with
          | Some e => (attempted, Some e)
          | None => (true, None)
          end
      end
  else (attempted, None).

(** Lines 166-177: the J2 bookkeeping for one observed lane. *)
Definition track_j2 (current_lane : string) (current_sim_time : Q) (s : j2_state) : j2_state :=
  if String.eqb current_lane J2_INTERNAL_LANE_ID then
    if negb (car0_on_j2_segment s)
    then mk_j2 current_sim_time (sim_time_car0_exits_j2 s) true
    else s
  else if car0_on_j2_segment s then
    if Qeq_bool (sim_time_car0_exits_j2 s) (-1)
    then mk_j2 (sim_time_car0_enters_j2 s) current_sim_time (car0_on_j2_segment s)
    else s
  else s.

(** The dictionary [{'time': t, 'x': pos[0], 'y': pos[1], 'id': name}]. *)
Definition new_point (t : Q) (pos : Q * Q) (name : string) : point_dict :=
  mk_point (Some t) (Some pos.1) (Some pos.2) {[ "id" := VStr name ]}.

(** [traj.append({...})] for each of the three lists. *)
Definition append_car (d : point_dict) (c : collected) : collected :=
  mk_collected (<[next_loc c := d]> (store c)) (S (next_loc c))
    (car0_traj c ++ [Rec (next_loc c)]) (ped1_traj c) (ped2_traj c).

Definition append_ped1 (d : point_dict) (c : collected) : collected :=
  mk_collected (<[next_loc c := d]> (store c)) (S (next_loc c))
    (car0_traj c) (ped1_traj c ++ [Rec (next_loc c)]) (ped2_traj c).

Definition append_ped2 (d : point_dict) (c : collected) : collected :=
  mk_collected (<[next_loc c := d]> (store c)) (S (next_loc c))
    (car0_traj c) (ped1_traj c) (ped2_traj c ++ [Rec (next_loc c)]).

(** Lines 161-178: trajectory collection and J2 bookkeeping for car_0. *)
Definition car_block (a : step_answers) (current_sim_time : Q) (st : run_state)
    : interrupted run_state :=
  except_traci
    match ans_car_listed a with
    | Throws e => (st, Some e)
    | Returns false => (st, None)
    | Returns true =>
        match ans_car_getPosition a with
        | Throws e => (st, Some e)
        | Returns car_pos =>
            let data' := append_car (new_point current_sim_time car_pos "car_0") (data st) in
            match ans_car_getLaneID a with
            | Throws e => (mk_run (flags st) (j2 st) data', Some e)
            | Returns current_lane =>
                (mk_run (flags st) (track_j2 current_lane current_sim_time (j2 st)) data',
                 None)
            end
        end
    end.

(** Lines 180-190: trajectory collection for a pedestrian. *)
Definition ped_block (listed : call bool) (position : call (Q * Q))
    (append : point_dict -> collected -> collected) (name : string)
    (current_sim_time : Q) (st : run_state) : interrupted run_state :=
  except_traci
    match listed with
    | Throws e => (st, Some e)
    | Returns false => (st, None)
    | Returns true =>
        match position with
        | Throws e => (st, Some e)
        | Returns ped_pos =>
            (mk_run (flags st) (j2 st)
               (append (new_point current_sim_time ped_pos name) (data st)), None)
        end
    end.

(** Body of [for step in range(num_simulation_steps)]. *)
Definition run_step (step : nat) (a : step_answers) (st : run_state)
    : interrupted run_state :=
  match ans_getTime a with
  | Throws e => (st, Some e)
  | Returns current_sim_time =>
      match ans_simulationStep a with
      | Throws e => (st, Some e)
      | Returns _ =>
          and_then
            (let '(f, e) := speed_block step (ans_car_listed_for_speed a)
                              [ans_car_setSpeedMode a; ans_car_setSpeed a]
                              (car0_speed_set_attempted (flags st)) in
             (mk_run (mk_flags f (ped1_speed_set_attempted (flags st))
                               (ped2_speed_set_attempted (flags st)))
                     (j2 st) (data st), e))
            (fun st =>
          and_then
            (let '(f, e) := speed_block step (ans_ped1_listed_for_speed a)
                              [ans_ped1_setSpeed a]
                              (ped1_speed_set_attempted (flags st)) in
             (mk_run (mk_flags (car0_speed_set_attempted (flags st)) f
                               (ped2_speed_set_attempted (flags st)))
                     (j2 st) (data st), e))
            (fun st =>
          and_then
            (let '(f, e) := speed_block step (ans_ped2_listed_for_speed a)
                              [ans_ped2_setSpeed a]
                              (ped2_speed_set_attempted (flags st)) in
             (mk_run (mk_flags (car0_speed_set_attempted (flags st))
                               (ped1_speed_set_attempted (flags st)) f)
                     (j2 st) (data st), e))
            (fun st =>
          and_then (car_block a current_sim_time st)
            (fun st =>
          and_then (ped_block (ans_ped1_listed a) (ans_ped1_getPosition a)
                      append_ped1 "ped_1" current_sim_time st)
            (fun st =>
          ped_block (ans_ped2_listed a) (ans_ped2_getPosition a)
            append_ped2 "ped_2" current_sim_time st)))))
      end
  end.

Fixpoint run_steps (script : nat -> step_answers) (steps : list nat) (st : run_state)
    : interrupted run_state :=
  match steps with
  | [] => (st, None)
  | step :: rest => and_then (run_step step (script step) st) (run_steps script rest)
  end.

(** Lines 192-201: the traversal time of J2, or the sentinel. *)
Definition finalize_traversal (s : j2_state) : Q :=
  if negb (Qeq_bool (sim_time_car0_enters_j2 s) (-1)) then
    if negb (Qeq_bool (sim_time_car0_exits_j2 s) (-1))
    then sim_time_car0_exits_j2 s - sim_time_car0_enters_j2 s
    else -1
  else -1.

(** What a run hands back: the two PET values, the traversal time, the
    three trajectories, and the store their dictionaries live in. *)
Record run_result : Type := mk_result {
  r_pet1 : pet;
  r_pet2 : pet;
  r_traversal : Q;
  r_car0 : trajectory;
  r_ped1 : trajectory;
  r_ped2 : trajectory;
  r_store : heap
}.

(** The function returns, or an exception raised in the [finally] clause
    leaves it. *)
Inductive run_outcome : Type :=
| Returned (r : run_result)
| Escaped (e : traci_exn).

(** The three [except] clauses of the outer [try]. *)
Definition degraded (e : traci_exn) (c : collected) : run_result :=
  match e with
  | FileNotFoundError => mk_result PInf PInf (-1) [] [] [] (store c)
  | _ => mk_result PInf PInf (-1) (car0_traj c) (ped1_traj c) (ped2_traj c) (store c)
  end.

Definition initial_run_state : run_state :=
  mk_run (mk_flags false false false) (mk_j2 (-1) (-1) false)
         (mk_collected (fun _ => mk_point None None None ∅) 0 [] [] []).

Section SumoInterface.

Variable SHAPELY_AVAILABLE : bool.
Variable shapely_contains : Q * Q -> polygon -> bool.

(** The import flag of the PET calculator. *)
Variable PET_CALCULATOR_AVAILABLE : bool.

(** Lines 210-222: one PET, computed when both trajectories are not
    empty; the store is the one [calculate_pet] leaves. *)
Definition pet_if_both (h : heap) (car ped : trajectory) (area : polygon)
    : heap * result pet :=
  match car, ped with
  | _ :: _, _ :: _ => calculate_pet SHAPELY_AVAILABLE shapely_contains h car ped area
  | _, _ => (h, Ok PInf)
  end.

(** The body of the outer [try] after the launch, and its handlers. *)
Definition run_body (script : nat -> step_answers)
    (encroachment_area1_coords encroachment_area2_coords : polygon) : run_result :=
  match run_steps script (seq 0 num_simulation_steps) initial_run_state with
  | (st, Some e) => degraded e (data st)
  | (st, None) =>
      let av_j2_traversal_time := finalize_traversal (j2 st) in
      let c := data st in
      if PET_CALCULATOR_AVAILABLE then
        match pet_if_both (store c) (car0_traj c) (ped1_traj c) encroachment_area1_coords with
        | (h1, Raise _) =>
            degraded OtherException
              (mk_collected h1 (next_loc c) (car0_traj c) (ped1_traj c) (ped2_traj c))
        | (h1, Ok pet1) =>
            match pet_if_both h1 (car0_traj c) (ped2_traj c) encroachment_area2_coords with
            | (h2, Raise _) =>
                degraded OtherException
                  (mk_collected h2 (next_loc c) (car0_traj c) (ped1_traj c) (ped2_traj c))
            | (h2, Ok pet2) =>
                mk_result pet1 pet2 av_j2_traversal_time
                  (car0_traj c) (ped1_traj c) (ped2_traj c) h2
            end
        end
      else
        mk_result PInf PInf av_j2_traversal_time
          (car0_traj c) (ped1_traj c) (ped2_traj c) (store c)
  end.

(** [start] answers [traci.start]; [close] answers the [finally] clause
    ([isLoaded], [getConnection], [close]).  The target speeds only go
    into commands sent to the simulator. *)
Definition execute_single_sumo_run (start : call unit) (script : nat -> step_answers)
    (close : call unit)
    (encroachment_area1_coords encroachment_area2_coords : polygon) : run_outcome :=
  let r :=
    match start with
    | Throws e => degraded e (data initial_run_state)
    | Returns _ => run_body script encroachment_area1_coords encroachment_area2_coords
    end in
  match close with
  | Throws e => Escaped e
  | Returns _ => Returned r
  end.

End SumoInterface.

(** Statements about runs. *)

(** A call that returns, or raises the exception the inner handlers
    absorb. *)
Definition at_most_traci {A} (c : call A) : Prop :=
  match c with
  | Returns _ => True
  | Throws e => e = TraCIException
  end.

Definition returns {A} (c : call A) : Prop :=
  match c with
  | Returns _ => True
  | Throws _ => False
  end.

(** A step during which no exception reaches the outer handlers. *)
Definition quiet_step (a : step_answers) : Prop :=
  returns (ans_getTime a) /\ returns (ans_simulationStep a)
  /\ at_most_traci (ans_car_listed_for_speed a) /\ at_most_traci (ans_car_setSpeedMode a)
  /\ at_most_traci (ans_car_setSpeed a)
  /\ at_most_traci (ans_ped1_listed_for_speed a) /\ at_most_traci (ans_ped1_setSpeed a)
  /\ at_most_traci (ans_ped2_listed_for_speed a) /\ at_most_traci (ans_ped2_setSpeed a)
  /\ at_most_traci (ans_car_listed a) /\ at_most_traci (ans_car_getPosition a)
  /\ at_most_traci (ans_car_getLaneID a)
  /\ at_most_traci (ans_ped1_listed a) /\ at_most_traci (ans_ped1_getPosition a)
  /\ at_most_traci (ans_ped2_listed a) /\ at_most_traci (ans_ped2_getPosition a).

(** Simulation times are not negative and do not decrease. *)
Definition times_ordered (script : nat -> step_answers) : Prop :=
  forall i j ti tj,
    (i <= j)%nat ->
    ans_getTime (script i) = Returns ti -> ans_getTime (script j) = Returns tj ->
    0 <= ti /\ ti <= tj.

(** The J2 bookkeeping is consistent: nothing is recorded before the car
    is seen on the segment; afterwards the entry time is not negative and
    an exit time, once recorded, does not precede it. *)
Definition j2_consistent (s : j2_state) : Prop :=
  (car0_on_j2_segment s = false
   /\ sim_time_car0_enters_j2 s = -1 /\ sim_time_car0_exits_j2 s = -1)
  \/ (car0_on_j2_segment s = true
      /\ 0 <= sim_time_car0_enters_j2 s
      /\ (sim_time_car0_exits_j2 s = -1
          \/ sim_time_car0_enters_j2 s <= sim_time_car0_exits_j2 s)).

(** Every collected element is a record created by the run, holding
    'time', 'x' and 'y'. *)
Definition well_collected (c : collected) : Prop :=
  forall e, e ∈ car0_traj c ++ ped1_traj c ++ ped2_traj c ->
            exists l, e = Rec l /\ (l < next_loc c)%nat
                      /\ is_malformed (store c) (Rec l) = false.

(** The invariant of the stepping loop for the J2 bookkeeping at step
    [n]: consistent, and an entry time lies before all times to come. *)
Definition j2_invariant (script : nat -> step_answers) (n : nat) (st : run_state) : Prop :=
  j2_consistent (j2 st)
  /\ (car0_on_j2_segment (j2 st) = true ->
      forall j t, (n <= j)%nat -> ans_getTime (script j) = Returns t ->
                  sim_time_car0_enters_j2 (j2 st) <= t).

(** A script in which the simulator answers nothing useful: the launch
    works, every step passes, and no entity is ever listed. *)
Definition idle_answers : step_answers :=
  mk_answers (Returns 0) (Returns tt)
    (Returns false) (Returns tt) (Returns tt)
    (Returns false) (Returns tt) (Returns false) (Returns tt)
    (Returns false) (Returns (0, 0)) (Returns "")
    (Returns false) (Returns (0, 0)) (Returns false) (Returns (0, 0)).

(** A script in which the car crosses the first default area's height at
    steps 1-3 and is on the J2 lane at steps 2 and 3; simulation time is
    the step number. *)
Definition crossing_answers (step : nat) : step_answers :=
  mk_answers (Returns (inject_Z (Z.of_nat step))) (Returns tt)
    (Returns true) (Returns tt) (Returns tt)
    (Returns false) (Returns tt) (Returns false) (Returns tt)
    (Returns (step <? 5)%nat)
    (Returns (inject_Z (Z.of_nat step), 0))
    (Returns (if ((2 <=? step) && (step <? 4))%nat then J2_INTERNAL_LANE_ID else "E0_0"))
    (Returns false) (Returns (0, 0)) (Returns false) (Returns (0, 0)).

(** ** Comparisons *)

Lemma Qlt_bool_iff (a b : Q) : Qlt_bool a b = true <-> a < b.
Proof.
  unfold Qlt_bool. rewrite negb_true_iff.
  destruct (Qle_bool b a) eqn:E.
  - apply Qle_bool_iff in E. split; [discriminate | intros H; lra].
  - split; [intros _ | reflexivity].
    destruct (Qlt_le_dec a b) as [|Hle]; [assumption |].
    apply Qle_bool_iff in Hle. congruence.
Qed.

Lemma Qlt_bool_false (a b : Q) : Qlt_bool a b = false <-> b <= a.
Proof.
  destruct (Qlt_bool a b) eqn:E.
  - apply Qlt_bool_iff in E. split; [discriminate | intros; lra].
  - split; [intros _ | reflexivity].
    destruct (Qlt_le_dec a b) as [Hlt|]; [| assumption].
    apply Qlt_bool_iff in Hlt. congruence.
Qed.

Lemma Qle_bool_false (a b : Q) : Qle_bool a b = false <-> b < a.
Proof.
  destruct (Qle_bool a b) eqn:E.
  - apply Qle_bool_iff in E. split; [discriminate | intros; lra].
  - split; [intros _ | reflexivity].
    destruct (Qlt_le_dec b a) as [|Hle]; [assumption |].
    apply Qle_bool_iff in Hle. congruence.
Qed.

Lemma Qeq_bool_false (a b : Q) : Qeq_bool a b = false <-> ~ a == b.
Proof.
  split.
  - intros E H. apply Qeq_bool_iff in H. congruence.
  - intros H. destruct (Qeq_bool a b) eqn:E; [| reflexivity].
    apply Qeq_bool_iff in E. contradiction.
Qed.

(** Turn every boolean comparison in sight into an order fact. *)
Ltac order_facts :=
  repeat match goal with
  | H : Qlt_bool _ _ = true |- _ => apply Qlt_bool_iff in H
  | H : Qlt_bool _ _ = false |- _ => apply Qlt_bool_false in H
  | H : Qle_bool _ _ = true |- _ => apply Qle_bool_iff in H
  | H : Qle_bool _ _ = false |- _ => apply Qle_bool_false in H
  | H : Qeq_bool _ _ = true |- _ => apply Qeq_bool_iff in H
  | H : Qeq_bool _ _ = false |- _ => apply Qeq_bool_false in H
  end.

Lemma py_max_spec (a b : Q) :
  (a < b /\ py_max a b = b) \/ (b <= a /\ py_max a b = a).
Proof.
  unfold py_max. destruct (Qlt_bool a b) eqn:E; order_facts; auto.
Qed.

Lemma py_min_spec (a b : Q) :
  (b < a /\ py_min a b = b) \/ (a <= b /\ py_min a b = a).
Proof.
  unfold py_min. destruct (Qlt_bool b a) eqn:E; order_facts; auto.
Qed.

Lemma py_max_Qmax (a b : Q) : py_max a b == Qmax a b.
Proof.
  destruct (py_max_spec a b) as [[H ->]|[H ->]].
  - symmetry. apply Q.max_r. lra.
  - symmetry. apply Q.max_l. lra.
Qed.

Lemma py_min_Qmin (a b : Q) : py_min a b == Qmin a b.
Proof.
  destruct (py_min_spec a b) as [[H ->]|[H ->]].
  - symmetry. apply Q.min_r. lra.
  - symmetry. apply Q.min_l. lra.
Qed.

(** ** The point-in-polygon test always answers *)

Arguments is_inside_polygon : simpl never.
Arguments get_coords_time : simpl never.
Arguments scan_pair : simpl never.
Arguments check_order : simpl never.
Arguments implied_entry : simpl never.
Arguments single_sample : simpl never.
Arguments finish : simpl never.
Arguments _get_entry_exit_times : simpl never.
Arguments pet_of_intervals : simpl never.

Ltac unfold_result :=
  unfold mbind, result_bind, mret, result_ret, try_except in *; simpl in *.

Ltac unfold_goal :=
  unfold mbind, result_bind, mret, result_ret, try_except; simpl.

(** The ray-casting step never reads [xinters] before it is assigned: the
    comparison is reached only between two vertices of different height. *)
Lemma ray_step_total (x y : Q) (p2 : Q * Q) (st : ray_state) :
  exists st', ray_step x y p2 st = Ok st'.
Proof.
  unfold ray_step. destruct p2 as [p2x p2y].
  destruct (Qlt_bool (py_min (p1y st) p2y) y) eqn:E1; [| eauto].
  destruct (Qle_bool y (py_max (p1y st) p2y)) eqn:E2; [| eauto].
  destruct (Qle_bool x (py_max (p1x st) p2x)) eqn:E3; [| eauto].
  destruct (Qeq_bool (p1y st) p2y) eqn:Ey; simpl.
  - exfalso. order_facts.
    destruct (py_min_spec (p1y st) p2y) as [[? Hm]|[? Hm]], (py_max_spec (p1y st) p2y) as [[? HM]|[? HM]];
      rewrite Hm in E1; rewrite HM in E2; lra.
  - destruct (Qeq_bool (p1x st) p2x); unfold_result; eauto.
Qed.

Lemma ray_loop_total (x y : Q) (polygon_vertices : polygon) (indices : list nat)
    (st : ray_state) :
  polygon_vertices <> [] ->
  exists st', ray_loop x y polygon_vertices (length polygon_vertices) indices st = Ok st'.
Proof.
  intros Hne. revert st. induction indices as [|i rest IH]; intros st; simpl; [eauto |].
  assert (Hlt : (i mod length polygon_vertices < length polygon_vertices)%nat).
  { apply Nat.mod_upper_bound. destruct polygon_vertices; [congruence | simpl; lia]. }
  destruct (lookup_lt_is_Some_2 _ _ Hlt) as [p2 ->].
  destruct (ray_step_total x y p2 st) as [st' ->]. unfold_result. apply IH.
Qed.

Lemma manual_ray_casting_total (point : Q * Q) (polygon_vertices : polygon) :
  exists b, manual_ray_casting point polygon_vertices = Ok b.
Proof.
  unfold manual_ray_casting.
  destruct (length polygon_vertices <? 3)%nat eqn:E; [eauto |].
  destruct point as [x y].
  destruct polygon_vertices as [|[p1x0 p1y0] tl] eqn:Ep; [discriminate |].
  rewrite <- Ep. assert (Hne : polygon_vertices <> []) by (subst; discriminate).
  replace (polygon_vertices !! 0%nat) with (Some (p1x0, p1y0)) by (subst; reflexivity).
  destruct (ray_loop_total x y polygon_vertices
              (seq 0 (length polygon_vertices + 1)) (mk_ray false p1x0 p1y0 None) Hne)
    as [st ->].
  unfold_result. eauto.
Qed.

Lemma is_inside_polygon_total (SA : bool) (sc : Q * Q -> polygon -> bool)
    (point : Q * Q) (polygon_vertices : polygon) :
  exists b, is_inside_polygon SA sc point polygon_vertices = Ok b.
Proof.
  unfold is_inside_polygon. destruct polygon_vertices as [|v tl]; [eauto |].
  destruct SA.
  - destruct (length (v :: tl) <? 3)%nat; eauto.
  - apply manual_ray_casting_total.
Qed.

Lemma is_inside_polygon_degenerate (SA : bool) (sc : Q * Q -> polygon -> bool)
    (point : Q * Q) (polygon_vertices : polygon) :
  (length polygon_vertices < 3)%nat ->
  is_inside_polygon SA sc point polygon_vertices = Ok false.
Proof.
  intros Hlen. apply Nat.ltb_lt in Hlen.
  unfold is_inside_polygon, manual_ray_casting.
  destruct polygon_vertices as [|v tl]; [reflexivity |].
  rewrite Hlen. destruct SA; reflexivity.
Qed.

(** ** Entry/exit extraction: totality, frame and order *)

Section ExtractionFacts.

Variable SA : bool.
Variable sc : Q * Q -> polygon -> bool.

Lemma get_coords_time_cases (h : heap) (e : element) :
  (exists p t, get_coords_time h e = Ok (p, t) /\ is_malformed h e = false)
  \/ (exists x, get_coords_time h e = Raise x /\ is_value_or_type_error x = true
                /\ is_malformed h e = true).
Proof.
  destruct e as [l|v]; unfold get_coords_time; simpl; [| right; eauto].
  destruct (f_x (h l)) as [x|], (f_y (h l)) as [y|], (f_time (h l)) as [t|]; simpl;
    solve [left; eauto | right; eauto].
Qed.

Lemma get_coords_time_same (h h' : heap) (e : element) :
  same_coords h h' -> get_coords_time h' e = get_coords_time h e.
Proof.
  intros Hsame. destruct e as [l|v]; [| reflexivity].
  unfold get_coords_time. destruct (Hsame l) as (-> & -> & ->). reflexivity.
Qed.

Lemma scan_pair_total (h : heap) (poly : polygon) (prev curr : element) (st : scan_state) :
  exists o, scan_pair SA sc h poly prev curr st = Ok o.
Proof.
  unfold scan_pair.
  destruct (get_coords_time_cases h prev) as [(p & t & -> & _)|(x & -> & Hx & _)];
    unfold_result; [| rewrite Hx; eauto].
  destruct (get_coords_time_cases h curr) as [(p' & t' & -> & _)|(x & -> & Hx & _)];
    unfold_result; [| rewrite Hx; eauto].
  destruct (is_inside_polygon_total SA sc p' poly) as [b ->].
  destruct (negb (currently_inside st) && b); [eauto |].
  destruct (currently_inside st && negb b); eauto.
Qed.

Lemma scan_total (h : heap) (poly : polygon) (rest : trajectory) (prev : element)
    (st : scan_state) :
  exists o, scan SA sc h poly prev rest st = Ok o.
Proof.
  revert prev st. induction rest as [|curr rest IH]; intros prev st; simpl; [eauto |].
  destruct (scan_pair_total h poly prev curr st) as [o ->]. unfold_result.
  destruct o; eauto.
Qed.

Lemma implied_entry_total (h : heap) (poly : polygon) (traj : trajectory)
    (entry exit : option Q) :
  traj <> [] -> exists r, implied_entry SA sc h poly traj entry exit = Ok r.
Proof.
  intros Hne. unfold implied_entry.
  destruct exit as [x|], entry as [e|]; eauto.
  destruct traj as [|p0 tl]; [congruence |]. simpl.
  destruct (get_coords_time_cases h p0) as [(p & t & -> & _)|(y & -> & Hy & _)];
    unfold_result; [| rewrite Hy; eauto].
  destruct (is_inside_polygon_total SA sc p poly) as [[] ->]; eauto.
Qed.

Lemma single_sample_total (h : heap) (poly : polygon) (traj : trajectory)
    (entry exit : option Q) :
  traj <> [] -> exists r, single_sample SA sc h poly traj entry exit = Ok r.
Proof.
  intros Hne. unfold single_sample.
  destruct entry; [destruct (length traj =? 1)%nat |]; by apply implied_entry_total.
Qed.

Lemma finish_total (h : heap) (poly : polygon) (traj : trajectory) (st : scan_state) :
  traj <> [] -> exists r, finish SA sc h poly traj st = Ok r.
Proof.
  intros Hne. unfold finish.
  destruct (currently_inside st), (entry_time st), (exit_time st);
    try by apply single_sample_total.
  destruct (proj2 (last_is_Some traj) Hne) as [p_last ->].
  destruct (get_coords_time_cases h p_last) as [(p & t & -> & _)|(y & -> & Hy & _)];
    unfold try_except; [by apply single_sample_total | rewrite Hy; eauto].
Qed.

(** Extraction never lets an exception escape. *)
Lemma get_entry_exit_times_total (h : heap) (traj : trajectory) (poly : polygon) :
  exists r, _get_entry_exit_times SA sc h traj poly = Ok r.
Proof.
  unfold _get_entry_exit_times.
  destruct traj as [|p0 rest]; [eauto |]. destruct poly as [|v tl]; [eauto |].
  destruct (length (v :: tl) <? 3)%nat; [eauto |].
  destruct (get_coords_time_cases h p0) as [(p & t & -> & _)|(y & -> & Hy & _)];
    unfold_result; [| rewrite Hy; eauto].
  destruct (is_inside_polygon_total SA sc p (v :: tl)) as [b ->].
  destruct (scan_total h (v :: tl) rest p0
              (if b then mk_scan (Some t) None true else mk_scan None None false)) as [o ->].
  destruct o; eauto; by apply finish_total.
Qed.

(** Extraction reads only the keys 'time', 'x' and 'y'. *)
Lemma scan_same (h h' : heap) (poly : polygon) (rest : trajectory) (prev : element)
    (st : scan_state) :
  same_coords h h' -> scan SA sc h' poly prev rest st = scan SA sc h poly prev rest st.
Proof.
  intros Hsame. revert prev st.
  induction rest as [|curr rest IH]; intros prev st; simpl; [reflexivity |].
  unfold scan_pair. rewrite !(get_coords_time_same h h') by assumption.
  destruct (try_except _ _ _) as [[]|]; unfold_result; auto.
Qed.

Lemma implied_entry_same (h h' : heap) (poly : polygon) (traj : trajectory)
    (entry exit : option Q) :
  same_coords h h' ->
  implied_entry SA sc h' poly traj entry exit = implied_entry SA sc h poly traj entry exit.
Proof.
  intros Hsame. unfold implied_entry.
  destruct exit, entry; try reflexivity.
  destruct (traj !! 0%nat) as [p_first|]; [| reflexivity].
  by rewrite (get_coords_time_same h h').
Qed.

Lemma single_sample_same (h h' : heap) (poly : polygon) (traj : trajectory)
    (entry exit : option Q) :
  same_coords h h' ->
  single_sample SA sc h' poly traj entry exit = single_sample SA sc h poly traj entry exit.
Proof.
  intros Hsame. unfold single_sample.
  destruct entry; [destruct (length traj =? 1)%nat |]; by apply implied_entry_same.
Qed.

Lemma finish_same (h h' : heap) (poly : polygon) (traj : trajectory) (st : scan_state) :
  same_coords h h' -> finish SA sc h' poly traj st = finish SA sc h poly traj st.
Proof.
  intros Hsame. unfold finish.
  destruct (currently_inside st), (entry_time st), (exit_time st);
    try by apply single_sample_same.
  destruct (last traj) as [p_last|]; [| reflexivity].
  rewrite (get_coords_time_same h h') by assumption.
  destruct (get_coords_time h p_last) as [[p t]|y]; unfold try_except; [| reflexivity].
  by apply single_sample_same.
Qed.

Lemma get_entry_exit_times_same (h h' : heap) (traj : trajectory) (poly : polygon) :
  same_coords h h' ->
  _get_entry_exit_times SA sc h' traj poly = _get_entry_exit_times SA sc h traj poly.
Proof.
  intros Hsame. unfold _get_entry_exit_times.
  destruct traj as [|p0 rest]; [reflexivity |]. destruct poly as [|v tl]; [reflexivity |].
  destruct (length (v :: tl) <? 3)%nat; [reflexivity |].
  rewrite (get_coords_time_same h h') by assumption.
  destruct (get_coords_time h p0) as [[p t]|x]; unfold_result; [| reflexivity].
  destruct (is_inside_polygon SA sc p (v :: tl)) as [b|]; [| reflexivity].
  rewrite (scan_same h h') by assumption.
  destruct (scan SA sc h (v :: tl) p0 rest _) as [o|]; [| reflexivity].
  destruct o; try reflexivity; by apply finish_same.
Qed.

(** The loop returns early only with the empty interval. *)
Lemma scan_pair_return (h : heap) (poly : polygon) (prev curr : element)
    (st : scan_state) (r : option Q * option Q) :
  scan_pair SA sc h poly prev curr st = Ok (Return r) -> r = (None, None).
Proof.
  unfold scan_pair.
  destruct (get_coords_time h prev) as [[p1 t1]|y]; unfold_result;
    [| destruct (is_value_or_type_error y); congruence].
  destruct (get_coords_time h curr) as [[p2 t2]|y]; unfold_result;
    [| destruct (is_value_or_type_error y); congruence].
  destruct (is_inside_polygon SA sc p2 poly) as [b'|]; [| discriminate].
  destruct (negb (currently_inside st) && b'); [discriminate |].
  destruct (currently_inside st && negb b'); discriminate.
Qed.

Lemma scan_return (h : heap) (poly : polygon) (rest : trajectory) (prev : element)
    (st : scan_state) (r : option Q * option Q) :
  scan SA sc h poly prev rest st = Ok (Return r) -> r = (None, None).
Proof.
  revert prev st. induction rest as [|curr rest IH]; intros prev st; simpl; [discriminate |].
  destruct (scan_pair SA sc h poly prev curr st) as [o|] eqn:Hp; unfold_result;
    [| discriminate].
  destruct o as [st'|st'|r']; [apply IH | discriminate |].
  intros [= ->]. by apply scan_pair_return in Hp.
Qed.

(** When both bounds are present the entry does not follow the exit. *)
Lemma implied_entry_ordered (h : heap) (poly : polygon) (traj : trajectory)
    (entry exit : option Q) (e x : Q) :
  implied_entry SA sc h poly traj entry exit = Ok (Some e, Some x) -> e <= x.
Proof.
  assert (Hco : forall a b,
            Ok (check_order a b) = Ok (Some e, Some x) :> result _ -> e <= x).
  { intros [a|] [b|]; unfold check_order; try discriminate.
    destruct (Qlt_bool b a) eqn:E; [discriminate |]. intros [= <- <-]. by order_facts. }
  unfold implied_entry.
  destruct exit as [x'|], entry as [e'|]; try apply Hco.
  destruct (traj !! 0%nat) as [p_first|]; [| discriminate].
  destruct (get_coords_time h p_first) as [[p t]|y]; unfold_result;
    [| destruct (is_value_or_type_error y); discriminate].
  destruct (is_inside_polygon SA sc p poly) as [[]|y]; try discriminate;
    [apply Hco | destruct (is_value_or_type_error y); discriminate].
Qed.

Lemma get_entry_exit_times_ordered (h : heap) (traj : trajectory) (poly : polygon)
    (e x : Q) :
  _get_entry_exit_times SA sc h traj poly = Ok (Some e, Some x) -> e <= x.
Proof.
  assert (Hss : forall entry exit,
            single_sample SA sc h poly traj entry exit = Ok (Some e, Some x) -> e <= x).
  { intros entry exit. unfold single_sample.
    destruct entry; [destruct (length traj =? 1)%nat |]; apply implied_entry_ordered. }
  assert (Hfin : forall st, finish SA sc h poly traj st = Ok (Some e, Some x) -> e <= x).
  { intros st. unfold finish.
    destruct (currently_inside st), (entry_time st), (exit_time st); try apply Hss.
    destruct (last traj) as [p_last|]; [| discriminate].
    destruct (get_coords_time h p_last) as [[p t]|y]; unfold try_except;
      [apply Hss | destruct (is_value_or_type_error y); discriminate]. }
  unfold _get_entry_exit_times.
  destruct traj as [|p0 rest]; [discriminate |]. destruct poly as [|v tl]; [discriminate |].
  destruct (length (v :: tl) <? 3)%nat; [discriminate |].
  destruct (get_coords_time h p0) as [[p t]|y]; unfold_result;
    [| destruct (is_value_or_type_error y); discriminate].
  destruct (is_inside_polygon SA sc p (v :: tl)) as [b|y];
    [| destruct (is_value_or_type_error y); discriminate].
  destruct (scan SA sc h (v :: tl) p0 rest _) as [o|] eqn:Hscan; [| discriminate].
  destruct o as [st|st|r]; try apply Hfin.
  apply scan_return in Hscan as ->. discriminate.
Qed.

End ExtractionFacts.

(** ** The normalisation loop of [calculate_pet] *)

Lemma setdefault_idem (k : string) (v : pyval) (d : point_dict) :
  setdefault k v (setdefault k v d) = setdefault k v d.
Proof.
  unfold setdefault. destruct (tags d !! k) eqn:E; simpl.
  - by rewrite E.
  - by rewrite lookup_insert_eq.
Qed.

Lemma setdefault_present (k : string) (v : pyval) (d : point_dict) :
  is_Some (tags d !! k) -> setdefault k v d = d.
Proof. intros [w Hw]. unfold setdefault. by rewrite Hw. Qed.

Lemma setdefault_lookup (k : string) (v : pyval) (d : point_dict) :
  tags (setdefault k v d) !! k = Some (default v (tags d !! k)).
Proof.
  unfold setdefault. destruct (tags d !! k) eqn:E; simpl; [done |].
  by rewrite lookup_insert_eq.
Qed.

Lemma setdefault_lookup_ne (k k' : string) (v : pyval) (d : point_dict) :
  k <> k' -> tags (setdefault k v d) !! k' = tags d !! k'.
Proof.
  intros Hne. unfold setdefault. destruct (tags d !! k); simpl; [done |].
  by rewrite lookup_insert_ne.
Qed.

Lemma setdefault_coords (k : string) (v : pyval) (d : point_dict) :
  f_time (setdefault k v d) = f_time d /\ f_x (setdefault k v d) = f_x d
  /\ f_y (setdefault k v d) = f_y d.
Proof. unfold setdefault. destruct (tags d !! k); simpl; auto. Qed.

Lemma with_defaults_speed (d : point_dict) :
  tags (with_defaults d) !! "speed" = Some (default (VNum 0) (tags d !! "speed")).
Proof.
  unfold with_defaults. rewrite setdefault_lookup_ne by done. apply setdefault_lookup.
Qed.

Lemma with_defaults_id (d : point_dict) :
  tags (with_defaults d) !! "id" = Some (default (VStr "dummy") (tags d !! "id")).
Proof.
  unfold with_defaults. rewrite setdefault_lookup. by rewrite setdefault_lookup_ne.
Qed.

Lemma with_defaults_idem (d : point_dict) : with_defaults (with_defaults d) = with_defaults d.
Proof.
  unfold with_defaults at 1.
  rewrite (setdefault_present "speed") by (rewrite with_defaults_speed; eauto).
  apply setdefault_present. rewrite with_defaults_id. eauto.
Qed.

Lemma with_defaults_coords (d : point_dict) :
  f_time (with_defaults d) = f_time d /\ f_x (with_defaults d) = f_x d
  /\ f_y (with_defaults d) = f_y d.
Proof.
  unfold with_defaults.
  destruct (setdefault_coords "id" (VStr "dummy") (setdefault "speed" (VNum 0) d))
    as (-> & -> & ->).
  apply setdefault_coords.
Qed.

(** The store after the loop: exactly the reached dictionaries carry the
    defaults. *)
Lemma normalize_fst (h : heap) (traj_list : trajectory) (l : loc) :
  fst (normalize h traj_list) l =
  if decide (l ∈ reached_records traj_list) then with_defaults (h l) else h l.
Proof.
  revert h. induction traj_list as [|[l'|v] rest IH]; intros h; simpl.
  - reflexivity.
  - rewrite IH. fold (with_defaults (h l')).
    destruct (decide (l = l')) as [->|Hne].
    + rewrite fn_lookup_insert, with_defaults_idem.
      rewrite (decide_True (P := l' ∈ l' :: _)) by set_solver.
      by destruct (decide _).
    + rewrite fn_lookup_insert_ne by done.
      destruct (decide (l ∈ reached_records rest)).
      * by rewrite decide_True by set_solver.
      * by rewrite decide_False by set_solver.
  - reflexivity.
Qed.

Lemma normalize_same_coords (h : heap) (traj_list : trajectory) :
  same_coords h (fst (normalize h traj_list)).
Proof.
  intros l. rewrite normalize_fst. destruct (decide _); [apply with_defaults_coords | done].
Qed.

Lemma normalize_records (h : heap) (traj_list : trajectory) :
  forallb is_record traj_list = true -> snd (normalize h traj_list) = Ok tt.
Proof.
  revert h. induction traj_list as [|[l|v] rest IH]; intros h; simpl; auto. discriminate.
Qed.

Lemma normalize_not_records (h : heap) (traj_list : trajectory) :
  forallb is_record traj_list = false -> snd (normalize h traj_list) = Raise AttributeError.
Proof.
  revert h. induction traj_list as [|[l|v] rest IH]; intros h; simpl; auto. discriminate.
Qed.

Lemma reached_records_all (traj_list : trajectory) (l : loc) :
  forallb is_record traj_list = true ->
  l ∈ reached_records traj_list <-> Rec l ∈ traj_list.
Proof.
  induction traj_list as [|[l'|v] rest IH]; simpl; intros Hall; [set_solver | | done].
  rewrite !elem_of_cons, IH by done. naive_solver.
Qed.

Section CalculatePetFacts.

Variable SA : bool.
Variable sc : Q * Q -> polygon -> bool.

(** On trajectories of dictionaries the result is the PET of the two
    extracted intervals, and extraction may be read on the caller's store. *)
Lemma calculate_pet_records (h : heap) (veh ped : trajectory) (poly : polygon) :
  forallb is_record veh = true -> forallb is_record ped = true ->
  snd (calculate_pet SA sc h veh ped poly) =
  ('(T_veh_entry, T_veh_exit) ← _get_entry_exit_times SA sc h veh poly;
   '(T_ped_entry, T_ped_exit) ← _get_entry_exit_times SA sc h ped poly;
   Ok (pet_of_intervals T_veh_entry T_veh_exit T_ped_entry T_ped_exit)).
Proof.
  intros Hv Hp. unfold calculate_pet.
  pose proof (normalize_records h veh Hv) as H1.
  pose proof (normalize_same_coords h veh) as S1.
  destruct (normalize h veh) as [h1 r1]. simpl in H1, S1. subst r1.
  pose proof (normalize_records h1 ped Hp) as H2.
  pose proof (normalize_same_coords h1 ped) as S2.
  destruct (normalize h1 ped) as [h2 r2]. simpl in H2, S2. subst r2. simpl.
  assert (S : same_coords h h2).
  { intros l. destruct (S1 l) as (? & ? & ?), (S2 l) as (? & ? & ?).
    repeat split; congruence. }
  by rewrite !(get_entry_exit_times_same SA sc h h2).
Qed.

(** An element that is no dictionary makes the loop raise. *)
Lemma calculate_pet_not_records (h : heap) (veh ped : trajectory) (poly : polygon) :
  forallb is_record (veh ++ ped) = false ->
  snd (calculate_pet SA sc h veh ped poly) = Raise AttributeError.
Proof.
  rewrite forallb_app. intros Hall. unfold calculate_pet.
  destruct (forallb is_record veh) eqn:Hv.
  - pose proof (normalize_records h veh Hv) as H1.
    destruct (normalize h veh) as [h1 r1]. simpl in H1. subst r1.
    pose proof (normalize_not_records h1 ped Hall) as H2.
    destruct (normalize h1 ped) as [h2 r2]. simpl in H2. by subst r2.
  - pose proof (normalize_not_records h veh Hv) as H1.
    destruct (normalize h veh) as [h1 r1]. simpl in H1. by subst r1.
Qed.

(** The final store on trajectories of dictionaries. *)
Lemma calculate_pet_store (h : heap) (veh ped : trajectory) (poly : polygon) (l : loc) :
  forallb is_record veh = true -> forallb is_record ped = true ->
  (Rec l ∈ veh ++ ped -> fst (calculate_pet SA sc h veh ped poly) l = with_defaults (h l))
  /\ (Rec l ∉ veh ++ ped -> fst (calculate_pet SA sc h veh ped poly) l = h l).
Proof.
  intros Hv Hp. unfold calculate_pet.
  pose proof (normalize_records h veh Hv) as H1.
  pose proof (normalize_fst h veh l) as F1.
  destruct (normalize h veh) as [h1 r1]. simpl in H1, F1. subst r1.
  pose proof (normalize_records h1 ped Hp) as H2.
  pose proof (normalize_fst h1 ped l) as F2.
  destruct (normalize h1 ped) as [h2 r2]. simpl in H2, F2. subst r2. simpl.
  rewrite F2, F1, elem_of_app.
  destruct (decide (l ∈ reached_records ped)) as [Hin2|Hin2];
    destruct (decide (l ∈ reached_records veh)) as [Hin1|Hin1];
    rewrite reached_records_all in Hin1, Hin2 by done;
    rewrite ?with_defaults_idem; split; intros; tauto.
Qed.

End CalculatePetFacts.

(** ** The PET of two intervals *)

Lemma pet_of_intervals_absent (Tve Tvx Tpe Tpx : option Q) :
  Tve = None \/ Tvx = None \/ Tpe = None \/ Tpx = None ->
  pet_of_intervals Tve Tvx Tpe Tpx = PInf.
Proof.
  unfold pet_of_intervals. destruct Tve, Tvx, Tpe, Tpx; try reflexivity.
  intros [|[|[|]]]; discriminate.
Qed.

Lemma pet_of_intervals_overlap (ve vx pe px : Q) :
  Qmax ve pe < Qmin vx px ->
  exists q, pet_of_intervals (Some ve) (Some vx) (Some pe) (Some px) = Fin q
            /\ q == Qmax ve pe - Qmin vx px /\ q < 0.
Proof.
  intros Hov. unfold pet_of_intervals.
  rewrite <- py_max_Qmax, <- py_min_Qmin in Hov.
  rewrite (proj2 (Qlt_bool_iff _ _) Hov).
  eexists. split; [reflexivity |].
  rewrite <- py_max_Qmax, <- py_min_Qmin. split; [reflexivity | lra].
Qed.

Lemma pet_of_intervals_gap (ve vx pe px : Q) :
  ve <= vx -> pe <= px -> ~ Qmax ve pe < Qmin vx px ->
  (vx <= pe ->
   exists q, pet_of_intervals (Some ve) (Some vx) (Some pe) (Some px) = Fin q
             /\ q == pe - vx /\ 0 <= q)
  /\ (px <= ve ->
      exists q, pet_of_intervals (Some ve) (Some vx) (Some pe) (Some px) = Fin q
                /\ q == ve - px /\ 0 <= q).
Proof.
  intros Hv Hp Hno. unfold pet_of_intervals.
  rewrite <- py_max_Qmax, <- py_min_Qmin in Hno.
  destruct (Qlt_bool (py_max ve pe) (py_min vx px)) eqn:E;
    [apply Qlt_bool_iff in E; contradiction |].
  split; intros Hle.
  - rewrite (proj2 (Qle_bool_iff _ _) Hle). eexists. split; [reflexivity |].
    split; [reflexivity | lra].
  - destruct (Qle_bool vx pe) eqn:E1; order_facts.
    + eexists. split; [reflexivity |]. split; lra.
    + rewrite (proj2 (Qle_bool_iff _ _) Hle). eexists. split; [reflexivity |].
      split; [reflexivity | lra].
Qed.

Lemma pet_of_intervals_touch (ve vx pe px : Q) :
  ve <= vx -> pe <= px -> vx == pe -> px == ve ->
  exists q, pet_of_intervals (Some ve) (Some vx) (Some pe) (Some px) = Fin q /\ q == 0.
Proof.
  intros Hv Hp H1 H2. unfold pet_of_intervals.
  destruct (py_max_spec ve pe) as [[? ->]|[? ->]], (py_min_spec vx px) as [[? ->]|[? ->]];
    (destruct (Qlt_bool _ _) eqn:E; order_facts; [lra |]);
    (destruct (Qle_bool vx pe) eqn:E1; order_facts; [| lra]);
    eexists; (split; [reflexivity | lra]).
Qed.

(** Swapping the two agents does not change the PET of ordered intervals. *)
Lemma pet_of_intervals_swap (ve vx pe px : Q) :
  ve <= vx -> pe <= px ->
  pet_eq (pet_of_intervals (Some ve) (Some vx) (Some pe) (Some px))
         (pet_of_intervals (Some pe) (Some px) (Some ve) (Some vx)).
Proof.
  intros Hv Hp. unfold pet_of_intervals.
  destruct (py_max_spec ve pe) as [[? ->]|[? ->]], (py_min_spec vx px) as [[? ->]|[? ->]],
           (py_max_spec pe ve) as [[? ->]|[? ->]], (py_min_spec px vx) as [[? ->]|[? ->]];
    try lra;
    repeat match goal with
           | |- context [Qlt_bool ?a ?b] => destruct (Qlt_bool a b) eqn:?
           | |- context [Qle_bool ?a ?b] => destruct (Qle_bool a b) eqn:?
           end;
    order_facts; simpl; lra.
Qed.

Lemma pet_of_intervals_swap_any (Tve Tvx Tpe Tpx : option Q) :
  (forall e x, Tve = Some e -> Tvx = Some x -> e <= x) ->
  (forall e x, Tpe = Some e -> Tpx = Some x -> e <= x) ->
  pet_eq (pet_of_intervals Tve Tvx Tpe Tpx) (pet_of_intervals Tpe Tpx Tve Tvx).
Proof.
  intros Hv Hp. destruct Tve as [ve|], Tvx as [vx|], Tpe as [pe|], Tpx as [px|];
    try exact I.
  apply pet_of_intervals_swap; eauto.
Qed.

(** ** Claims about [calculate_pet] *)

(** C3. For two trajectories of records whose extracted occupancy
    intervals are given, [calculate_pet] returns [+infinity] when a bound
    is absent; when all four bounds are present (each entry is then at
    most its exit) it returns [max(entries) - min(exits)], a negative
    value, if [max(entries) < min(exits)]; otherwise the non-negative gap
    [later entry - earlier exit] if one agent's exit is at most the
    other's entry; and [0] if the boundaries coincide in both
    directions. *)
Theorem calculate_pet_interval_cases (SA : bool) (sc : Q * Q -> polygon -> bool)
    (h : heap) (veh ped : trajectory) (poly : polygon) (Tve Tvx Tpe Tpx : option Q) :
  forallb is_record veh = true -> forallb is_record ped = true ->
  _get_entry_exit_times SA sc h veh poly = Ok (Tve, Tvx) ->
  _get_entry_exit_times SA sc h ped poly = Ok (Tpe, Tpx) ->
  exists p, snd (calculate_pet SA sc h veh ped poly) = Ok p
    /\ (Tve = None \/ Tvx = None \/ Tpe = None \/ Tpx = None -> p = PInf)
    /\ forall ve vx pe px,
         Tve = Some ve -> Tvx = Some vx -> Tpe = Some pe -> Tpx = Some px ->
         (ve <= vx /\ pe <= px)
         /\ (Qmax ve pe < Qmin vx px ->
             exists q, p = Fin q /\ q == Qmax ve pe - Qmin vx px /\ q < 0)
         /\ (~ Qmax ve pe < Qmin vx px -> vx <= pe ->
             exists q, p = Fin q /\ q == pe - vx /\ 0 <= q)
         /\ (~ Qmax ve pe < Qmin vx px -> px <= ve ->
             exists q, p = Fin q /\ q == ve - px /\ 0 <= q)
         /\ (vx == pe -> px == ve -> exists q, p = Fin q /\ q == 0).
Proof.
  intros Hv Hp Eveh Eped.
  exists (pet_of_intervals Tve Tvx Tpe Tpx). split.
  { rewrite calculate_pet_records by assumption. by rewrite Eveh, Eped. }
  split; [apply pet_of_intervals_absent |].
  intros ve vx pe px -> -> -> ->.
  pose proof (get_entry_exit_times_ordered _ _ _ _ _ _ _ Eveh) as Ov.
  pose proof (get_entry_exit_times_ordered _ _ _ _ _ _ _ Eped) as Op.
  split; [done |].
  split; [apply pet_of_intervals_overlap |].
  split; [intros Hno; by apply pet_of_intervals_gap |].
  split; [intros Hno; by apply pet_of_intervals_gap |].
  by apply pet_of_intervals_touch.
Qed.

Lemma calculate_pet_interval_cases_witness :
  exists p, snd (calculate_pet false no_library scenario_store
                   vehicle_traj1 pedestrian_traj1 encroachment_area) = Ok p
            /\ exists q, p = Fin q /\ q == (7 # 2) - (3 # 2) /\ 0 <= q.
Proof.
  destruct (calculate_pet_interval_cases false no_library scenario_store
              vehicle_traj1 pedestrian_traj1 encroachment_area
              (Some (1 # 2)) (Some (3 # 2)) (Some (7 # 2)) (Some (9 # 2)))
    as (p & Hp & _ & Hcases); try (vm_compute; reflexivity).
  exists p. split; [exact Hp |].
  destruct (Hcases (1 # 2) (3 # 2) (7 # 2) (9 # 2)) as (_ & _ & Hgap & _);
    try reflexivity.
  apply Hgap.
  - unfold Qlt. vm_compute. discriminate.
  - unfold Qle. vm_compute. discriminate.
Defined.

(** C5. Swapping the two trajectories does not change the outcome of
    [calculate_pet]: the same PET value in every case (in particular the
    same magnitude in the overlap case), or the same exception. *)
Theorem calculate_pet_swap (SA : bool) (sc : Q * Q -> polygon -> bool)
    (h : heap) (veh ped : trajectory) (poly : polygon) :
  outcome_eq (snd (calculate_pet SA sc h veh ped poly))
             (snd (calculate_pet SA sc h ped veh poly))
  /\ forall q q',
       snd (calculate_pet SA sc h veh ped poly) = Ok (Fin q) ->
       snd (calculate_pet SA sc h ped veh poly) = Ok (Fin q') ->
       q == q' /\ Qabs q == Qabs q'.
Proof.
  assert (Hout : outcome_eq (snd (calculate_pet SA sc h veh ped poly))
                            (snd (calculate_pet SA sc h ped veh poly))).
  { destruct (forallb is_record veh) eqn:Hv, (forallb is_record ped) eqn:Hp.
    - rewrite !calculate_pet_records by assumption.
      destruct (get_entry_exit_times_total SA sc h veh poly) as [[Tve Tvx] Ev].
      destruct (get_entry_exit_times_total SA sc h ped poly) as [[Tpe Tpx] Ep].
      rewrite Ev, Ep. simpl.
      apply pet_of_intervals_swap_any; intros e x -> ->;
        eapply get_entry_exit_times_ordered; eassumption.
    - rewrite !calculate_pet_not_records; [done | |]; rewrite forallb_app, Hv, Hp; done.
    - rewrite !calculate_pet_not_records; [done | |]; rewrite forallb_app, Hv, Hp; done.
    - rewrite !calculate_pet_not_records; [done | |]; rewrite forallb_app, Hv, Hp; done. }
  split; [exact Hout |].
  intros q q' E E'. rewrite E, E' in Hout. simpl in Hout.
  split; [exact Hout | by rewrite Hout].
Qed.

(** C6. Over a polygon with fewer than three vertices the
    point-in-polygon test answers false for every point under both
    strategies, extraction yields (absent, absent) for every trajectory,
    and the PET of every pair of trajectories of records is [+infinity]. *)
Theorem degenerate_polygon (SA : bool) (sc : Q * Q -> polygon -> bool) (poly : polygon) :
  (length poly < 3)%nat ->
  (forall point,
     is_inside_polygon true sc point poly = Ok false
     /\ is_inside_polygon false sc point poly = Ok false)
  /\ (forall h traj, _get_entry_exit_times SA sc h traj poly = Ok (None, None))
  /\ (forall h veh ped,
        forallb is_record veh = true -> forallb is_record ped = true ->
        snd (calculate_pet SA sc h veh ped poly) = Ok PInf).
Proof.
  intros Hlen.
  assert (Hext : forall h traj, _get_entry_exit_times SA sc h traj poly = Ok (None, None)).
  { intros h traj. unfold _get_entry_exit_times.
    destruct traj as [|p0 rest]; [reflexivity |]. destruct poly as [|v tl]; [reflexivity |].
    by rewrite (proj2 (Nat.ltb_lt _ _) Hlen). }
  split; [intros point; split; by apply is_inside_polygon_degenerate |].
  split; [exact Hext |].
  intros h veh ped Hv Hp. rewrite calculate_pet_records by assumption.
  by rewrite !Hext.
Qed.

Lemma degenerate_polygon_witness :
  (length [(0, 0); (10, 0)] < 3)%nat
  /\ snd (calculate_pet false no_library scenario_store vehicle_traj1 pedestrian_traj1
            [(0, 0); (10, 0)]) = Ok PInf.
Proof.
  split; [simpl; lia |].
  apply (degenerate_polygon false no_library [(0, 0); (10, 0)]);
    [simpl; lia | reflexivity | reflexivity].
Defined.

(** C9. [calculate_pet] writes into the caller's dictionaries: after a
    call on two trajectories of records, every point of either trajectory
    that lacked the key 'speed' holds ['speed': 0] and every point that
    lacked 'id' holds ['id': 'dummy'], so such a point is no longer what
    the caller passed in; keys that were present keep their values. *)
Theorem calculate_pet_mutates_points (SA : bool) (sc : Q * Q -> polygon -> bool)
    (h : heap) (veh ped : trajectory) (poly : polygon) (l : loc) :
  forallb is_record veh = true -> forallb is_record ped = true ->
  Rec l ∈ veh ++ ped ->
  let h' := fst (calculate_pet SA sc h veh ped poly) in
  h' l = setdefault "id" (VStr "dummy") (setdefault "speed" (VNum 0) (h l))
  /\ (tags (h l) !! "speed" = None -> tags (h' l) !! "speed" = Some (VNum 0))
  /\ (tags (h l) !! "id" = None -> tags (h' l) !! "id" = Some (VStr "dummy"))
  /\ (tags (h l) !! "speed" = None \/ tags (h l) !! "id" = None -> h' l <> h l)
  /\ (forall v, tags (h l) !! "speed" = Some v -> tags (h' l) !! "speed" = Some v)
  /\ (forall v, tags (h l) !! "id" = Some v -> tags (h' l) !! "id" = Some v).
Proof.
  intros Hv Hp Hin h'.
  assert (E : h' l = with_defaults (h l)).
  { by apply (calculate_pet_store SA sc h veh ped poly l Hv Hp). }
  split; [exact E |]. rewrite E.
  pose proof (with_defaults_speed (h l)) as Hs.
  pose proof (with_defaults_id (h l)) as Hi.
  repeat split.
  - intros Hn. by rewrite Hs, Hn.
  - intros Hn. by rewrite Hi, Hn.
  - intros [Hn|Hn] Heq; rewrite Heq in *; congruence.
  - intros v Hsome. by rewrite Hs, Hsome.
  - intros v Hsome. by rewrite Hi, Hsome.
Qed.

Lemma calculate_pet_mutates_points_witness :
  let h' := fst (calculate_pet false no_library scenario_store
                   vehicle_traj1 pedestrian_traj1 encroachment_area) in
  tags (scenario_store 4%nat) !! "speed" = None
  /\ tags (h' 4%nat) !! "speed" = Some (VNum 0)
  /\ tags (h' 4%nat) !! "id" = Some (VStr "dummy").
Proof.
  intros h'.
  destruct (calculate_pet_mutates_points false no_library scenario_store
              vehicle_traj1 pedestrian_traj1 encroachment_area 4%nat)
    as (_ & Hs & Hi & _).
  - reflexivity.
  - reflexivity.
  - unfold vehicle_traj1, pedestrian_traj1. set_solver.
  - split; [reflexivity |]. split; [apply Hs | apply Hi]; reflexivity.
Defined.

(** ** Malformed samples *)

Section Malformed.

Variable SA : bool.
Variable sc : Q * Q -> polygon -> bool.

Lemma scan_pair_malformed (h : heap) (poly : polygon) (prev m : element) (st : scan_state) :
  is_malformed h m = true ->
  scan_pair SA sc h poly prev m st = Ok (Return (None, None)).
Proof.
  intros Hm. unfold scan_pair.
  destruct (get_coords_time_cases h prev) as [(p & t & -> & _)|(x & -> & Hx & _)];
    unfold_result; [| by rewrite Hx].
  destruct (get_coords_time_cases h m) as [(p' & t' & _ & Hw)|(x & -> & Hx & _)];
    [congruence |].
  by rewrite Hx.
Qed.

Lemma scan_inside_then_malformed (h : heap) (poly : polygon) (ins : trajectory)
    (m : element) (post : trajectory) (prev : element) (st : scan_state) :
  Forall (fun e => sample_inside SA sc h poly e true) ins ->
  is_malformed h m = true ->
  scan SA sc h poly prev (ins ++ m :: post) st = Ok (Return (None, None)).
Proof.
  intros Hins Hm. revert prev st.
  induction Hins as [|e ins (p & t & Hg & Hi) _ IH]; intros prev st; simpl.
  - by rewrite scan_pair_malformed.
  - unfold scan_pair.
    destruct (get_coords_time_cases h prev) as [(p' & t' & -> & _)|(x & -> & Hx & _)];
      unfold_result; [| by rewrite Hx].
    rewrite Hg. simpl. rewrite Hi.
    destruct (currently_inside st); simpl; apply IH.
Qed.

Lemma scan_outside_then_malformed (h : heap) (poly : polygon) (outs ins : trajectory)
    (m : element) (post : trajectory) (prev : element) (st : scan_state) :
  currently_inside st = false ->
  Forall (fun e => sample_inside SA sc h poly e false) outs ->
  Forall (fun e => sample_inside SA sc h poly e true) ins ->
  is_malformed h m = true ->
  scan SA sc h poly prev (outs ++ ins ++ m :: post) st = Ok (Return (None, None)).
Proof.
  intros Hci Houts Hins Hm. revert prev.
  induction Houts as [|e outs (p & t & Hg & Hi) _ IH]; intros prev; simpl.
  - by apply scan_inside_then_malformed.
  - unfold scan_pair.
    destruct (get_coords_time_cases h prev) as [(p' & t' & -> & _)|(x & -> & Hx & _)];
      unfold_result; [| by rewrite Hx].
    rewrite Hg. simpl. rewrite Hi, Hci. simpl. apply IH.
Qed.

(** A malformed sample met by the scan voids the whole trajectory. *)
Lemma get_entry_exit_times_malformed (h : heap) (traj : trajectory) (poly : polygon) :
  meets_malformed SA sc h poly traj ->
  _get_entry_exit_times SA sc h traj poly = Ok (None, None).
Proof.
  intros (outs & ins & m & post & -> & Houts & Hins & Hm).
  unfold _get_entry_exit_times.
  destruct (outs ++ ins ++ m :: post) as [|p0 rest] eqn:Etraj; [reflexivity |].
  destruct poly as [|v tl]; [reflexivity |].
  destruct (length (v :: tl) <? 3)%nat; [reflexivity |].
  destruct Houts as [|o outs (p & t & Hg & Hi) Houts].
  - destruct Hins as [|i ins (p & t & Hg & Hi) Hins]; simpl in Etraj;
      injection Etraj as <- <-.
    + destruct (get_coords_time_cases h m) as [(p' & t' & _ & Hw)|(x & -> & Hx & _)];
        [congruence |].
      unfold_result. by rewrite Hx.
    + rewrite Hg. unfold_result. rewrite Hi.
      by rewrite scan_inside_then_malformed.
  - simpl in Etraj. injection Etraj as <- <-.
    rewrite Hg. unfold_result. rewrite Hi.
    by rewrite scan_outside_then_malformed.
Qed.

End Malformed.

(** C2, as stated, fails: a sample without 'x' that follows the first
    exit is never read, so the trajectory keeps its interval and the PET
    against the pedestrian of the first scenario is finite. *)
Lemma malformed_sample_after_exit :
  (Rec 8 ∈ late_malformed_traj /\ is_malformed malformed_store (Rec 8) = true)
  /\ _get_entry_exit_times false no_library malformed_store late_malformed_traj
       encroachment_area = Ok (Some 0, Some (1 # 2))
  /\ _get_entry_exit_times false no_library malformed_store late_malformed_traj
       encroachment_area <> Ok (None, None)
  /\ (exists q, snd (calculate_pet false no_library malformed_store
                        late_malformed_traj pedestrian_traj1 encroachment_area)
                 = Ok (Fin q) /\ q == 3)
  /\ snd (calculate_pet false no_library malformed_store late_malformed_traj
            pedestrian_traj1 encroachment_area) <> Ok PInf.
Proof.
  split; [split; [unfold late_malformed_traj; set_solver | reflexivity] |].
  split; [vm_compute; reflexivity |].
  split; [vm_compute; discriminate |].
  split; [| vm_compute; discriminate].
  exists (12 # 4). split; vm_compute; reflexivity.
Qed.

(** C2, amended. A malformed sample (no record, or a record without
    'time', 'x' or 'y') that the scan meets, that is, one preceded only by
    well-formed samples that never leave the polygon, makes extraction
    yield (absent, absent) for the whole trajectory; when the
    trajectories consist of records, the PET of any pair involving that
    trajectory is then [+infinity]. *)
Theorem malformed_sample_voids_interval (SA : bool) (sc : Q * Q -> polygon -> bool)
    (h : heap) (traj : trajectory) (poly : polygon) :
  meets_malformed SA sc h poly traj ->
  _get_entry_exit_times SA sc h traj poly = Ok (None, None)
  /\ forall other,
       forallb is_record traj = true -> forallb is_record other = true ->
       snd (calculate_pet SA sc h traj other poly) = Ok PInf
       /\ snd (calculate_pet SA sc h other traj poly) = Ok PInf.
Proof.
  intros Hm. pose proof (get_entry_exit_times_malformed SA sc h traj poly Hm) as E.
  split; [exact E |]. intros other Ht Ho.
  rewrite !calculate_pet_records, E by assumption.
  destruct (get_entry_exit_times_total SA sc h other poly) as [[Te Tx] ->]. simpl.
  split; [reflexivity |]. f_equal. apply pet_of_intervals_absent. tauto.
Qed.

Lemma malformed_sample_voids_interval_witness :
  _get_entry_exit_times false no_library malformed_store [Rec 6; Rec 8; Rec 7]
    encroachment_area = Ok (None, None)
  /\ snd (calculate_pet false no_library malformed_store [Rec 6; Rec 8; Rec 7]
            pedestrian_traj1 encroachment_area) = Ok PInf.
Proof.
  assert (Hm : meets_malformed false no_library malformed_store encroachment_area
                 [Rec 6; Rec 8; Rec 7]).
  { exists [], [Rec 6], (Rec 8), [Rec 7].
    split; [reflexivity |]. split; [constructor |].
    split; [| reflexivity].
    constructor; [| constructor]. exists (5, 5), 0. split; reflexivity. }
  destruct (malformed_sample_voids_interval false no_library malformed_store
              [Rec 6; Rec 8; Rec 7] encroachment_area Hm) as [E Hpet].
  split; [exact E |].
  apply (Hpet pedestrian_traj1); reflexivity.
Defined.

(** C10. When some element of either trajectory is not a record,
    [calculate_pet] ends with the [AttributeError] raised by the
    [setdefault] loop: no PET value is returned, although extraction on
    its own never raises and voids a trajectory at a malformed sample it
    meets.  Trajectories of records always get a PET value, which is
    [+infinity] when the scan of either one meets a record with a missing
    field. *)
Theorem calculate_pet_rejects_non_records (SA : bool) (sc : Q * Q -> polygon -> bool)
    (h : heap) (veh ped : trajectory) (poly : polygon) :
  forallb is_record (veh ++ ped) = false ->
  snd (calculate_pet SA sc h veh ped poly) = Raise AttributeError
  /\ (snd (normalize h veh) = Raise AttributeError
      \/ (snd (normalize h veh) = Ok tt
          /\ snd (normalize (fst (normalize h veh)) ped) = Raise AttributeError))
  /\ (exists rv rp,
        _get_entry_exit_times SA sc h veh poly = Ok rv
        /\ _get_entry_exit_times SA sc h ped poly = Ok rp)
  /\ (forall traj, meets_malformed SA sc h poly traj ->
                   _get_entry_exit_times SA sc h traj poly = Ok (None, None))
  /\ (forall veh' ped',
        forallb is_record (veh' ++ ped') = true ->
        exists p, snd (calculate_pet SA sc h veh' ped' poly) = Ok p
                  /\ (meets_malformed SA sc h poly veh'
                      \/ meets_malformed SA sc h poly ped' -> p = PInf)).
Proof.
  intros Hall. split; [by apply calculate_pet_not_records |].
  split.
  { rewrite forallb_app in Hall. destruct (forallb is_record veh) eqn:Hv.
    - right. split; [by apply normalize_records | by apply normalize_not_records].
    - left. by apply normalize_not_records. }
  split.
  { destruct (get_entry_exit_times_total SA sc h veh poly) as [rv Ev].
    destruct (get_entry_exit_times_total SA sc h ped poly) as [rp Ep]. eauto. }
  split; [intros traj; apply get_entry_exit_times_malformed |].
  intros veh' ped' Hrec. rewrite forallb_app in Hrec.
  apply andb_true_iff in Hrec as [Hv Hp].
  rewrite calculate_pet_records by assumption.
  destruct (get_entry_exit_times_total SA sc h veh' poly) as [[Tve Tvx] Ev].
  destruct (get_entry_exit_times_total SA sc h ped' poly) as [[Tpe Tpx] Ep].
  rewrite Ev, Ep. simpl. eexists. split; [reflexivity |].
  intros [Hm|Hm]; apply (get_entry_exit_times_malformed SA sc) in Hm.
  - rewrite Hm in Ev. injection Ev as <- <-. apply pet_of_intervals_absent. tauto.
  - rewrite Hm in Ep. injection Ep as <- <-. apply pet_of_intervals_absent. tauto.
Qed.

Lemma calculate_pet_rejects_non_records_witness :
  forallb is_record (vehicle_traj1 ++ [Rec 3; Atom VNone]) = false
  /\ snd (calculate_pet false no_library scenario_store vehicle_traj1
            [Rec 3; Atom VNone] encroachment_area) = Raise AttributeError.
Proof.
  split; [reflexivity |].
  apply (calculate_pet_rejects_non_records false no_library scenario_store
           vehicle_traj1 [Rec 3; Atom VNone] encroachment_area).
  reflexivity.
Defined.

(** ** The first concrete scenario *)

Lemma get_coords_time_sample (h : heap) (l : loc) (t x y : Q) :
  sample_at h l t x y -> get_coords_time h (Rec l) = Ok ((x, y), t).
Proof. intros (Ht & Hx & Hy). unfold get_coords_time. by rewrite Hx, Hy, Ht. Qed.

(** A trajectory of three samples, outside, inside, outside: entry and
    exit are the midpoints of the sample times around the inside one. *)
Lemma get_entry_exit_times_crossing (SA : bool) (sc : Q * Q -> polygon -> bool)
    (h : heap) (poly : polygon) (a b c : loc) (t0 x0 y0 t1 x1 y1 t2 x2 y2 : Q) :
  sample_at h a t0 x0 y0 -> sample_at h b t1 x1 y1 -> sample_at h c t2 x2 y2 ->
  is_inside_polygon SA sc (x0, y0) poly = Ok false ->
  is_inside_polygon SA sc (x1, y1) poly = Ok true ->
  is_inside_polygon SA sc (x2, y2) poly = Ok false ->
  (3 <= length poly)%nat -> t0 <= t2 ->
  _get_entry_exit_times SA sc h [Rec a; Rec b; Rec c] poly
  = Ok (Some ((t0 + t1) / 2), Some ((t1 + t2) / 2)).
Proof.
  intros Ha Hb Hc I0 I1 I2 Hlen Ht.
  pose proof (get_coords_time_sample _ _ _ _ _ Ha) as Ga.
  pose proof (get_coords_time_sample _ _ _ _ _ Hb) as Gb.
  pose proof (get_coords_time_sample _ _ _ _ _ Hc) as Gc.
  clear Ha Hb Hc. unfold _get_entry_exit_times.
  destruct poly as [|v tl]; [simpl in Hlen; lia |].
  rewrite (proj2 (Nat.ltb_ge _ _) Hlen), Ga. unfold_goal. rewrite I0. simpl.
  unfold scan_pair. rewrite Ga, Gb, Gc. unfold_goal. rewrite I1. simpl.
  rewrite I2. simpl.
  unfold finish, single_sample, implied_entry, check_order. simpl.
  rewrite (proj2 (Qlt_bool_false _ _)); [reflexivity |].
  apply Qmult_le_compat_r; [lra | discriminate].
Qed.

Lemma scenario_inside (SA : bool) (sc : Q * Q -> polygon -> bool) :
  SA = false \/ library_exact_on_scenario sc ->
  is_inside_polygon SA sc (5, 5) encroachment_area = Ok true
  /\ is_inside_polygon SA sc (-5, 5) encroachment_area = Ok false
  /\ is_inside_polygon SA sc (15, 5) encroachment_area = Ok false
  /\ is_inside_polygon SA sc (5, -5) encroachment_area = Ok false
  /\ is_inside_polygon SA sc (5, 15) encroachment_area = Ok false.
Proof.
  assert (Hmanual :
    is_inside_polygon false sc (5, 5) encroachment_area = Ok true
    /\ is_inside_polygon false sc (-5, 5) encroachment_area = Ok false
    /\ is_inside_polygon false sc (15, 5) encroachment_area = Ok false
    /\ is_inside_polygon false sc (5, -5) encroachment_area = Ok false
    /\ is_inside_polygon false sc (5, 15) encroachment_area = Ok false).
  { repeat split; vm_compute; reflexivity. }
  intros [->|(H1 & H2 & H3 & H4 & H5)]; [exact Hmanual |].
  destruct SA; [| exact Hmanual].
  unfold is_inside_polygon. simpl. by rewrite H1, H2, H3, H4, H5.
Qed.

(** C7. For the square [(0,0),(10,0),(10,10),(0,10)], the vehicle samples
    {t=0,(-5,5)}, {t=1,(5,5)}, {t=2,(15,5)} and the pedestrian samples
    {t=3,(5,-5)}, {t=4,(5,5)}, {t=5,(5,15)}, extraction yields the
    vehicle interval (0.5, 1.5) and the pedestrian interval (3.5, 4.5),
    the midpoints of the sample times at each transition, and
    [calculate_pet] returns 2.0.  This holds under manual ray casting,
    and under the geometry library when it classifies the five points
    exactly. *)
Theorem scenario_vehicle_first (SA : bool) (sc : Q * Q -> polygon -> bool)
    (h : heap) (v0 v1 v2 p0 p1 p2 : loc) :
  SA = false \/ library_exact_on_scenario sc ->
  sample_at h v0 0 (-5) 5 -> sample_at h v1 1 5 5 -> sample_at h v2 2 15 5 ->
  sample_at h p0 3 5 (-5) -> sample_at h p1 4 5 5 -> sample_at h p2 5 5 15 ->
  exists ve vx pe px q,
    _get_entry_exit_times SA sc h [Rec v0; Rec v1; Rec v2] encroachment_area
      = Ok (Some ve, Some vx)
    /\ ve = (0 + 1) / 2 /\ ve == 0.5 /\ vx = (1 + 2) / 2 /\ vx == 1.5
    /\ _get_entry_exit_times SA sc h [Rec p0; Rec p1; Rec p2] encroachment_area
         = Ok (Some pe, Some px)
    /\ pe = (3 + 4) / 2 /\ pe == 3.5 /\ px = (4 + 5) / 2 /\ px == 4.5
    /\ snd (calculate_pet SA sc h [Rec v0; Rec v1; Rec v2] [Rec p0; Rec p1; Rec p2]
              encroachment_area) = Ok (Fin q)
    /\ q == 2.
Proof.
  intros Hstrat V0 V1 V2 P0 P1 P2.
  destruct (scenario_inside SA sc Hstrat) as (I55 & Iw & Ie & Is & In).
  assert (Ev : _get_entry_exit_times SA sc h [Rec v0; Rec v1; Rec v2] encroachment_area
               = Ok (Some ((0 + 1) / 2), Some ((1 + 2) / 2))).
  { eapply get_entry_exit_times_crossing; eauto; [simpl; lia | discriminate]. }
  assert (Ep : _get_entry_exit_times SA sc h [Rec p0; Rec p1; Rec p2] encroachment_area
               = Ok (Some ((3 + 4) / 2), Some ((4 + 5) / 2))).
  { eapply get_entry_exit_times_crossing; eauto; [simpl; lia | discriminate]. }
  exists ((0 + 1) / 2), ((1 + 2) / 2), ((3 + 4) / 2), ((4 + 5) / 2), (8 # 4).
  repeat (split; [first [assumption | reflexivity] |]).
  split; [| reflexivity].
  rewrite calculate_pet_records, Ev, Ep by reflexivity.
  vm_compute. reflexivity.
Qed.

Lemma scenario_vehicle_first_witness :
  exists q,
    snd (calculate_pet false no_library scenario_store vehicle_traj1 pedestrian_traj1
           encroachment_area) = Ok (Fin q)
    /\ q == 2.
Proof.
  destruct (scenario_vehicle_first false no_library scenario_store
              0%nat 1%nat 2%nat 3%nat 4%nat 5%nat)
    as (ve & vx & pe & px & q & _ & _ & _ & _ & _ & _ & _ & _ & _ & _ & Hq & Hq2);
    try (repeat split; reflexivity).
  - left. reflexivity.
  - exists q. split; [exact Hq | exact Hq2].
Defined.

(** ** The order on sort keys *)

Ltac split_comparisons :=
  repeat match goal with
  | |- context [Qlt_bool ?a ?b] => destruct (Qlt_bool a b) eqn:?
  | |- context [Qeq_bool ?a ?b] => destruct (Qeq_bool a b) eqn:?
  end.

Ltac xfloat_cases :=
  unfold xfloat_eq, xfloat_lt; simpl;
  split_comparisons; intros; order_facts; try congruence; try lra.

Lemma xfloat_lt_trans (a b c : xfloat) :
  xfloat_lt a b = true -> xfloat_lt b c = true -> xfloat_lt a c = true.
Proof. destruct a, b, c; xfloat_cases. Qed.

Lemma xfloat_le_trans (a b c : xfloat) :
  xfloat_lt b a = false -> xfloat_lt c b = false -> xfloat_lt c a = false.
Proof. destruct a, b, c; xfloat_cases. Qed.

Lemma xfloat_lt_eq_l (a b c : xfloat) :
  xfloat_eq a b = true -> xfloat_lt a c = xfloat_lt b c.
Proof. destruct a, b, c; xfloat_cases. Qed.

Lemma xfloat_lt_eq_r (a b c : xfloat) :
  xfloat_eq b c = true -> xfloat_lt a b = xfloat_lt a c.
Proof. destruct a, b, c; xfloat_cases. Qed.

Lemma xfloat_eq_eq_l (a b c : xfloat) :
  xfloat_eq a b = true -> xfloat_eq a c = xfloat_eq b c.
Proof. destruct a, b, c; xfloat_cases. Qed.

Lemma xfloat_eq_eq_r (a b c : xfloat) :
  xfloat_eq b c = true -> xfloat_eq a b = xfloat_eq a c.
Proof. destruct a, b, c; xfloat_cases. Qed.

Lemma xfloat_lt_irrefl (a b : xfloat) :
  xfloat_lt a b = true -> xfloat_eq a b = false /\ xfloat_eq b a = false
                          /\ xfloat_lt b a = false.
Proof. destruct a, b; xfloat_cases; repeat split; congruence. Qed.

Lemma xfloat_total (a b : xfloat) :
  xfloat_eq a b = false -> xfloat_lt a b = false -> xfloat_lt b a = true.
Proof. destruct a, b; xfloat_cases. Qed.

Lemma xfloat_eq_sym (a b : xfloat) : xfloat_eq a b = xfloat_eq b a.
Proof. destruct a, b; xfloat_cases. Qed.

Lemma tuple_lt_asym (a b : xfloat * xfloat) :
  tuple_lt a b = true -> tuple_lt b a = false.
Proof.
  destruct a as [a1 a2], b as [b1 b2]. unfold tuple_lt. simpl.
  rewrite (xfloat_eq_sym b1 a1).
  destruct (xfloat_eq a1 b1); intros H; by apply xfloat_lt_irrefl in H as (_ & _ & H).
Qed.

Lemma tuple_le_trans (a b c : xfloat * xfloat) :
  tuple_lt b a = false -> tuple_lt c b = false -> tuple_lt c a = false.
Proof.
  destruct a as [a1 a2], b as [b1 b2], c as [c1 c2]. unfold tuple_lt. simpl.
  destruct (xfloat_eq b1 a1) eqn:Eba.
  - rewrite <- (xfloat_eq_eq_r c1 b1 a1 Eba), <- (xfloat_lt_eq_r c1 b1 a1 Eba).
    destruct (xfloat_eq c1 b1); [apply xfloat_le_trans | auto].
  - intros Hba. pose proof (xfloat_total b1 a1 Eba Hba) as Hab.
    destruct (xfloat_eq c1 b1) eqn:Ecb.
    + rewrite (xfloat_eq_eq_l c1 b1 a1 Ecb), Eba, (xfloat_lt_eq_l c1 b1 a1 Ecb). auto.
    + intros Hcb. pose proof (xfloat_total c1 b1 Ecb Hcb) as Hbc.
      pose proof (xfloat_lt_trans _ _ _ Hab Hbc) as Hac.
      by apply xfloat_lt_irrefl in Hac as (_ & -> & ->).
Qed.

Section Sorting.

Context {A : Type} (key : A -> xfloat * xfloat).

Lemma insert_by_perm (x : A) (l : list A) : insert_by key x l ≡ₚ x :: l.
Proof.
  induction l as [|y l IH]; simpl; [done |].
  destruct (tuple_lt (key y) (key x)); [| done].
  rewrite IH. apply Permutation_swap.
Qed.

Lemma sort_by_perm (l : list A) : sort_by key l ≡ₚ l.
Proof.
  induction l as [|x l IH]; simpl; [done |].
  fold (sort_by key l). by rewrite insert_by_perm, IH.
Qed.

Lemma insert_by_sorted (x : A) (l : list A) :
  StronglySorted (key_le key) l -> StronglySorted (key_le key) (insert_by key x l).
Proof.
  induction 1 as [|y l Hs IH Hy]; simpl.
  - repeat constructor.
  - destruct (tuple_lt (key y) (key x)) eqn:E.
    + constructor; [exact IH |].
      rewrite insert_by_perm. constructor; [| exact Hy].
      by apply tuple_lt_asym.
    + constructor; [by constructor |].
      constructor; [exact E |].
      eapply Forall_impl; [exact Hy |].
      intros z Hz. unfold key_le in *. eapply tuple_le_trans; eassumption.
Qed.

Lemma sort_by_sorted (l : list A) : StronglySorted (key_le key) (sort_by key l).
Proof.
  induction l as [|x l IH]; simpl; [constructor |].
  by apply insert_by_sorted.
Qed.

(** The first element after sorting does not sort after any element. *)
Lemma sort_by_head (l : list A) :
  l <> [] ->
  exists b rest, sort_by key l = b :: rest /\ b ∈ l /\ forall c, c ∈ l -> key_le key b c.
Proof.
  intros Hne. pose proof (sort_by_perm l) as Hperm.
  pose proof (sort_by_sorted l) as Hsorted.
  destruct (sort_by key l) as [|b rest].
  - apply Permutation_nil_l in Hperm. congruence.
  - exists b, rest. split; [reflexivity |].
    split; [rewrite <- Hperm; set_solver |].
    intros c Hc. rewrite <- Hperm in Hc.
    apply StronglySorted_inv in Hsorted as [_ Hall].
    apply elem_of_cons in Hc as [->|Hc].
    + unfold key_le. destruct (tuple_lt (key b) (key b)) eqn:E; [| done].
      by rewrite (tuple_lt_asym _ _ E) in E.
    + by eapply Forall_forall in Hall.
Qed.

End Sorting.

(** ** Claims about the optimizer *)

Section OptimizerFacts.

Variable sim : nat -> Q -> pet * pet * Q.

Lemma run_many_counter (runs : nat) (av_speed : Q) (acc : run_acc) :
  current_sim_run_number (run_many sim runs av_speed acc)
  = (current_sim_run_number acc + runs)%nat.
Proof.
  revert acc. induction runs as [|runs IH]; intros acc; simpl; [lia |].
  rewrite IH. unfold run_once.
  destruct (sim (S (current_sim_run_number acc)) av_speed) as [[pet1 pet2] tt].
  simpl. lia.
Qed.

(** When every run meets the constraint, every run is counted. *)
Lemma run_many_all_met (runs : nat) (av_speed : Q) (acc : run_acc) :
  (forall k, (current_sim_run_number acc < k <= current_sim_run_number acc + runs)%nat ->
             constraint_met (sim k av_speed).1.1 (sim k av_speed).1.2 = true) ->
  successful_pet_constraint_runs (run_many sim runs av_speed acc)
  = (successful_pet_constraint_runs acc + runs)%nat.
Proof.
  revert acc. induction runs as [|runs IH]; intros acc Hall; simpl; [lia |].
  rewrite IH.
  - unfold run_once.
    pose proof (Hall (S (current_sim_run_number acc)) ltac:(lia)) as Hmet.
    destruct (sim (S (current_sim_run_number acc)) av_speed) as [[pet1 pet2] tt].
    simpl in *. rewrite Hmet. simpl. lia.
  - intros k Hk. apply Hall. unfold run_once in Hk.
    destruct (sim (S (current_sim_run_number acc)) av_speed) as [[pet1 pet2] tt].
    simpl in Hk. lia.
Qed.

(** C8. If every trial of a candidate returns [+infinity] for both
    monitored PET values, every trial is classified as meeting the
    constraint, all of them are counted, and the candidate's empirical
    probability is 1. *)
Theorem all_infinite_probability_one (counter : nat) (av_speed : Q) :
  (forall k, (counter < k <= counter + N_SIM_RUNS_PER_AV_SPEED)%nat ->
             (sim k av_speed).1 = (PInf, PInf)) ->
  (forall k, (counter < k <= counter + N_SIM_RUNS_PER_AV_SPEED)%nat ->
             constraint_met (sim k av_speed).1.1 (sim k av_speed).1.2 = true)
  /\ successful_pet_constraint_runs
       (run_many sim N_SIM_RUNS_PER_AV_SPEED av_speed (mk_acc counter [] 0))
     = N_SIM_RUNS_PER_AV_SPEED
  /\ exists prob avg,
       snd (evaluate_candidate sim counter av_speed) = (av_speed, prob, avg)
       /\ prob == 1.
Proof.
  intros Hinf.
  assert (Hmet : forall k, (counter < k <= counter + N_SIM_RUNS_PER_AV_SPEED)%nat ->
                           constraint_met (sim k av_speed).1.1 (sim k av_speed).1.2 = true).
  { intros k Hk. by rewrite (Hinf k Hk). }
  assert (Hcount : successful_pet_constraint_runs
                     (run_many sim N_SIM_RUNS_PER_AV_SPEED av_speed (mk_acc counter [] 0))
                   = N_SIM_RUNS_PER_AV_SPEED).
  { by rewrite run_many_all_met. }
  split; [exact Hmet |]. split; [exact Hcount |].
  unfold evaluate_candidate. cbv zeta. rewrite Hcount.
  eexists _, _. split; [reflexivity | reflexivity].
Qed.

Lemma evaluate_candidate_speed (counter : nat) (av_speed : Q) :
  (evaluate_candidate sim counter av_speed).2.1.1 = av_speed.
Proof. reflexivity. Qed.

Lemma summarize_speeds (counter : nat) (speeds : list Q) :
  (fun c : Q * Q * Q => c.1.1) <$> summarize sim counter speeds = speeds.
Proof.
  revert counter. induction speeds as [|v rest IH]; intros counter; simpl; [done |].
  pose proof (evaluate_candidate_speed counter v) as Hv.
  destruct (evaluate_candidate sim counter v) as [counter' entry].
  simpl in *. by rewrite IH, <- Hv.
Qed.

(** The candidate speeds of the summary are 5, 10 and 15. *)
Lemma optimization_summary_speeds (c : Q * Q * Q) :
  c ∈ optimization_summary sim -> ~ c.1.1 == -1.
Proof.
  intros Hc.
  assert (Hin : c.1.1 ∈ (fun c : Q * Q * Q => c.1.1) <$> optimization_summary sim).
  { by apply (list_elem_of_fmap_2 (fun c : Q * Q * Q => c.1.1)). }
  unfold optimization_summary in Hin. rewrite summarize_speeds in Hin.
  vm_compute linspace in Hin.
  repeat (apply elem_of_cons in Hin as [->|Hin]; [discriminate |]).
  by apply elem_of_nil in Hin.
Qed.

End OptimizerFacts.

Lemma all_infinite_probability_one_witness :
  exists prob avg,
    snd (evaluate_candidate (fun _ _ => (PInf, PInf, -1)) 0 5) = (5, prob, avg)
    /\ prob == 1.
Proof.
  apply (all_infinite_probability_one (fun _ _ => (PInf, PInf, -1)) 0 5).
  intros k Hk. reflexivity.
Defined.

Lemma eligible_key_le (a b : Q * Q * Q) :
  key_le eligible_key a b -> ranks_no_later a b.
Proof.
  destruct a as [[sa ta] pa], b as [[sb tb] pb].
  unfold key_le, eligible_key, ranks_no_later, metric_defined, tuple_lt,
    xfloat_eq, xfloat_lt.
  destruct (Qeq_bool ta (-1)) eqn:Ea, (Qeq_bool tb (-1)) eqn:Eb; simpl;
    split_comparisons; intros; order_facts; try discriminate.
  all: try (left; split; [assumption | tauto]).
  all: try (right; right; split; [right; tauto | lra]).
  all: try (right; right; split; [left; repeat split; try assumption; lra | lra]).
  all: right; left; repeat split; try assumption.
  all: destruct (Qlt_le_dec ta tb) as [|Hle]; [assumption | exfalso].
  all: match goal with Hne : ~ _ == _ |- _ => apply Hne; lra end.
Qed.

Lemma elem_of_eligible_speeds (summary : list (Q * Q * Q)) (s tt p : Q) :
  (s, tt, p) ∈ eligible_speeds summary
  <-> (s, p, tt) ∈ summary /\ PROB_CONSTRAINT_SATISFIED_THRESHOLD <= p.
Proof.
  induction summary as [|[[s' p'] tt'] rest IH]; simpl.
  - split; [intros H; by apply elem_of_nil in H | intros [H _]; by apply elem_of_nil in H].
  - destruct (Qle_bool PROB_CONSTRAINT_SATISFIED_THRESHOLD p') eqn:E; order_facts;
      rewrite ?elem_of_cons, IH.
    + split.
      * intros [[= -> -> ->]|[H1 H2]]; split; auto.
      * intros [[[= -> -> ->]|H1] H2]; auto.
    + split.
      * intros [H1 H2]; split; auto.
      * intros [[[= -> -> ->]|H1] H2]; [lra | auto].
Qed.

(** The selection over a summary with an eligible candidate, none of whose
    control values is the sentinel [-1.0]. *)
Lemma select_optimal (summary : list (Q * Q * Q)) :
  (forall c, c ∈ summary -> ~ c.1.1 == -1) ->
  eligible_speeds summary <> [] ->
  exists s tt p,
    select summary = OptimalFound s (Fin tt) p
    /\ (s, tt, p) ∈ eligible_speeds summary
    /\ forall c, c ∈ eligible_speeds summary -> key_le eligible_key (s, tt, p) c.
Proof.
  intros Hspeed Hne.
  destruct (sort_by_head eligible_key _ Hne) as ([[s tt] p] & rest & Hsort & Hin & Hmin).
  exists s, tt, p. split; [| split; assumption].
  unfold select. rewrite Hsort.
  apply elem_of_eligible_speeds in Hin as [Hin _].
  apply Hspeed in Hin. simpl in Hin.
  apply Qeq_bool_false in Hin. by rewrite Hin.
Qed.

(** C4. When some candidate reaches the target probability, the
    optimizer reports one of those candidates, and it ranks no later than
    any other of them: smallest defined performance metric first,
    undefined metrics last, and on an exact metric tie the larger control
    value. *)
Theorem run_optimizer_selects_best_eligible (sim : nat -> Q -> pet * pet * Q) :
  (exists c, c ∈ optimization_summary sim
             /\ PROB_CONSTRAINT_SATISFIED_THRESHOLD <= c.1.2) ->
  exists s tt p,
    run_optimizer true sim = OptimalFound s (Fin tt) p
    /\ (s, p, tt) ∈ optimization_summary sim
    /\ PROB_CONSTRAINT_SATISFIED_THRESHOLD <= p
    /\ forall s' p' tt',
         (s', p', tt') ∈ optimization_summary sim ->
         PROB_CONSTRAINT_SATISFIED_THRESHOLD <= p' ->
         ranks_no_later (s, tt, p) (s', tt', p').
Proof.
  intros ([[s0 p0] tt0] & Hc & Hp0). simpl in Hp0.
  destruct (select_optimal (optimization_summary sim)) as (s & tt & p & Hsel & Hin & Hmin).
  - apply optimization_summary_speeds.
  - intros Hnil.
    assert (Hel : (s0, tt0, p0) ∈ eligible_speeds (optimization_summary sim)).
    { by apply elem_of_eligible_speeds. }
    rewrite Hnil in Hel. by apply elem_of_nil in Hel.
  - exists s, tt, p. split; [exact Hsel |].
    apply elem_of_eligible_speeds in Hin as [Hin Hp].
    split; [exact Hin |]. split; [exact Hp |].
    intros s' p' tt' Hin' Hp'. apply eligible_key_le, Hmin.
    by apply elem_of_eligible_speeds.
Qed.

Lemma run_optimizer_selects_best_eligible_witness :
  exists s tt p,
    run_optimizer true (fun _ _ => (PInf, PInf, 2)) = OptimalFound s (Fin tt) p
    /\ PROB_CONSTRAINT_SATISFIED_THRESHOLD <= p.
Proof.
  destruct (run_optimizer_selects_best_eligible (fun _ _ => (PInf, PInf, 2)))
    as (s & tt & p & Hsel & _ & Hp & _).
  - exists (10 # 2, 5 # 5, 10 # 5). split.
    + vm_compute. left.
    + vm_compute. discriminate.
  - exists s, tt, p. split; [exact Hsel | exact Hp].
Defined.

(** [max(.., key=..)] returns an element whose key no other key exceeds. *)
Lemma foldl_max_spec {A : Type} (key : A -> xfloat * xfloat) (l : list A) (best : A) :
  let r := foldl (fun best y => if tuple_lt (key best) (key y) then y else best) best l in
  (r = best \/ r ∈ l)
  /\ tuple_lt (key r) (key best) = false
  /\ forall c, c ∈ l -> tuple_lt (key r) (key c) = false.
Proof.
  assert (Hirr : forall a : xfloat * xfloat, tuple_lt a a = false).
  { intros a. destruct (tuple_lt a a) eqn:E; [| done]. by rewrite (tuple_lt_asym _ _ E) in E. }
  revert best. induction l as [|y l IH]; intros best; simpl.
  - split; [by left |]. split; [apply Hirr |]. intros c Hc. by apply elem_of_nil in Hc.
  - destruct (IH (if tuple_lt (key best) (key y) then y else best)) as (Hr & Hge & Hall).
    destruct (tuple_lt (key best) (key y)) eqn:E.
    + split; [right; destruct Hr as [->|Hr]; set_solver |].
      split; [eapply tuple_le_trans; [by apply tuple_lt_asym | exact Hge] |].
      intros c Hc. apply elem_of_cons in Hc as [->|Hc]; auto.
    + split; [destruct Hr as [->|Hr]; [by left | right; set_solver] |].
      split; [exact Hge |].
      intros c Hc. apply elem_of_cons in Hc as [->|Hc]; auto.
      eapply tuple_le_trans; [exact E | exact Hge].
Qed.

Lemma max_by_spec {A : Type} (key : A -> xfloat * xfloat) (l : list A) :
  l <> [] ->
  exists x, max_by key l = Some x /\ x ∈ l
            /\ forall c, c ∈ l -> tuple_lt (key x) (key c) = false.
Proof.
  destruct l as [|x0 l]; [done |]. intros _. simpl.
  destruct (foldl_max_spec key l x0) as (Hr & Hge & Hall).
  eexists. split; [reflexivity |].
  split; [destruct Hr as [->|Hr]; set_solver |].
  intros c Hc. apply elem_of_cons in Hc as [->|Hc]; auto.
Qed.

(** What the fallback does deliver: with no eligible candidate the report
    is flagged as not meeting the constraint, and the candidate named
    has the largest probability; among candidates of that probability
    whose metrics are defined it has the smallest metric. *)
Lemma select_best_compromise (summary : list (Q * Q * Q)) :
  eligible_speeds summary = [] -> summary <> [] ->
  exists c, select summary = NoSpeedFound (Some c) /\ c ∈ summary
    /\ forall c', c' ∈ summary ->
          c'.1.2 <= c.1.2
          /\ (c'.1.2 == c.1.2 -> metric_defined c.2 -> metric_defined c'.2 -> c.2 <= c'.2).
Proof.
  intros Hnone Hne. unfold select. rewrite Hnone. simpl.
  destruct (max_by_spec compromise_key summary Hne) as (c & -> & Hin & Hmax).
  exists c. split; [reflexivity |]. split; [exact Hin |].
  intros c' Hc'. specialize (Hmax c' Hc').
  destruct c as [[s p] t], c' as [[s' p'] t']. simpl.
  revert Hmax. unfold compromise_key, tuple_lt, metric_defined, xfloat_eq, xfloat_lt. simpl.
  destruct (Qeq_bool p p') eqn:Ep; order_facts.
  - split; [lra |]. intros _ Ht Ht'.
    apply Qeq_bool_false in Ht, Ht'. rewrite Ht, Ht' in Hmax. simpl in Hmax.
    order_facts. lra.
  - intros Hlt. order_facts. split; [lra |]. intros Heq. exfalso. apply Ep. lra.
Qed.

(** C1, the code at a failing input.  All three candidates have
    probability 0, below the target; two of them have the defined metric
    3, yet the reported best compromise is the candidate whose metric is
    the undefined sentinel. *)
Theorem best_compromise_prefers_undefined_metric :
  optimization_summary tied_runs
  = [(10 # 2, 0 # 5, 15 # 5); (20 # 2, 0 # 5, -1); (30 # 2, 0 # 5, 15 # 5)]
  /\ (forall c, c ∈ optimization_summary tied_runs ->
                c.1.2 < PROB_CONSTRAINT_SATISFIED_THRESHOLD)
  /\ run_optimizer true tied_runs = NoSpeedFound (Some (20 # 2, 0 # 5, -1)).
Proof.
  assert (Hsumm : optimization_summary tied_runs
                  = [(10 # 2, 0 # 5, 15 # 5); (20 # 2, 0 # 5, -1); (30 # 2, 0 # 5, 15 # 5)]).
  { vm_compute. reflexivity. }
  split; [exact Hsumm |]. split.
  - rewrite Hsumm. intros c Hc.
    repeat (apply elem_of_cons in Hc as [->|Hc]; [reflexivity |]).
    by apply elem_of_nil in Hc.
  - vm_compute. reflexivity.
Qed.

(** ** Further properties of entry/exit extraction *)

Section ExtractionShape.

Variable SA : bool.
Variable sc : Q * Q -> polygon -> bool.

(** One iteration on two well-formed samples. *)
Lemma scan_pair_well_formed (h : heap) (poly : polygon) (prev curr : element)
    (st : scan_state) (pp pc : Q * Q) (tp tc : Q) (b : bool) :
  get_coords_time h prev = Ok (pp, tp) ->
  get_coords_time h curr = Ok (pc, tc) ->
  is_inside_polygon SA sc pc poly = Ok b ->
  scan_pair SA sc h poly prev curr st =
  Ok (if negb (currently_inside st) && b then
        Continue (mk_scan (match entry_time st with
                           | None => Some ((tp + tc) / 2)
                           | Some e => Some e
                           end) (exit_time st) true)
      else if currently_inside st && negb b then
        Break (mk_scan (entry_time st) (Some ((tp + tc) / 2)) false)
      else Continue st).
Proof.
  intros Gp Gc Hb. unfold scan_pair. rewrite Gp, Gc. unfold_goal. rewrite Hb.
  destruct (negb (currently_inside st) && b); [reflexivity |].
  destruct (currently_inside st && negb b); reflexivity.
Qed.

Lemma last_cons_default (prev curr : element) (rest : trajectory) :
  default prev (last (curr :: rest)) = default curr (last rest).
Proof. rewrite last_cons. by destruct (last rest). Qed.

Lemma last_cons_Some (p0 : element) (rest : trajectory) :
  last (p0 :: rest) = Some (default p0 (last rest)).
Proof. rewrite last_cons. by destruct (last rest). Qed.




End ExtractionShape.

(** ** What extraction computes on well-formed samples *)

Section ExtractionValues.

Variable SA : bool.
Variable sc : Q * Q -> polygon -> bool.

Lemma sample_inside_well_formed (h : heap) (poly : polygon) (e : element) (b : bool) :
  sample_inside SA sc h poly e b ->
  exists p, get_coords_time h e = Ok (p, sample_time h e)
            /\ is_inside_polygon SA sc p poly = Ok b
            /\ is_malformed h e = false.
Proof.
  intros (p & t & G & Hb). exists p. unfold sample_time. rewrite G.
  split; [reflexivity |]. split; [exact Hb |].
  destruct (get_coords_time_cases h e) as [(? & ? & _ & Hw)|(y & Gy & _)];
    [exact Hw | congruence].
Qed.

Lemma well_formed_sample_time (h : heap) (e : element) :
  is_malformed h e = false -> exists p, get_coords_time h e = Ok (p, sample_time h e).
Proof.
  intros Hw. unfold sample_time.
  destruct (get_coords_time_cases h e) as [(p & t & -> & _)|(y & _ & _ & Hm)];
    [eauto | congruence].
Qed.

(** Samples on the side of the boundary the agent is on leave the state
    of the scan as it is. *)
Lemma scan_stay (h : heap) (poly : polygon) (b : bool) (run rest : trajectory)
    (prev : element) (st : scan_state) :
  is_malformed h prev = false ->
  Forall (fun e => sample_inside SA sc h poly e b) run ->
  currently_inside st = b ->
  scan SA sc h poly prev (run ++ rest) st
  = scan SA sc h poly (default prev (last run)) rest st.
Proof.
  intros Hw Hrun Hci. revert prev Hw.
  induction Hrun as [|e run He _ IH]; intros prev Hw; [reflexivity |].
  destruct (well_formed_sample_time h prev Hw) as [pp Gp].
  destruct (sample_inside_well_formed h poly e b He) as (pe & Ge & Hb & Hwe).
  simpl. rewrite (scan_pair_well_formed SA sc h poly prev e st _ _ _ _ b Gp Ge Hb).
  unfold_goal. rewrite Hci, last_cons_default.
  destruct b; simpl; by apply IH.
Qed.

(** The first sample outside after a run of samples inside ends the scan
    with the midpoint of the two sample times as exit. *)
Lemma scan_inside_until_exit (h : heap) (poly : polygon) (i0 : element)
    (ins : trajectory) (o : element) (post : trajectory) (st : scan_state) :
  is_malformed h i0 = false ->
  Forall (fun e => sample_inside SA sc h poly e true) ins ->
  sample_inside SA sc h poly o false ->
  currently_inside st = true ->
  scan SA sc h poly i0 (ins ++ o :: post) st
  = Ok (Break (mk_scan (entry_time st)
                 (Some ((sample_time h (default i0 (last ins)) + sample_time h o) / 2))
                 false)).
Proof.
  intros Hw Hins Ho Hci.
  rewrite (scan_stay h poly true ins (o :: post) i0 st Hw Hins Hci).
  assert (Hwl : is_malformed h (default i0 (last ins)) = false).
  { destruct (last ins) as [il|] eqn:El; [| exact Hw].
    apply last_Some_elem_of in El.
    rewrite Forall_forall in Hins.
    by destruct (sample_inside_well_formed h poly il true (Hins il El)) as (? & _ & _ & ?). }
  destruct (well_formed_sample_time h _ Hwl) as [pl Gl].
  destruct (sample_inside_well_formed h poly o false Ho) as (po & Go & Hb & _).
  simpl. rewrite (scan_pair_well_formed SA sc h poly _ o st _ _ _ _ false Gl Go Hb).
  unfold_goal. by rewrite Hci.
Qed.

Lemma finish_after_exit (h : heap) (poly : polygon) (traj : trajectory) (e x : Q) :
  (2 <= length traj)%nat ->
  finish SA sc h poly traj (mk_scan (Some e) (Some x) false)
  = Ok (if Qlt_bool x e then (None, None) else (Some e, Some x)).
Proof.
  intros Hlen. unfold finish, single_sample, implied_entry, check_order. simpl.
  destruct (length traj =? 1)%nat eqn:E; [apply Nat.eqb_eq in E; lia | reflexivity].
Qed.

Lemma finish_still_inside (h : heap) (poly : polygon) (p0 : element) (rest : trajectory)
    (e : Q) :
  is_malformed h (default p0 (last rest)) = false ->
  (rest = [] -> e = sample_time h p0) ->
  finish SA sc h poly (p0 :: rest) (mk_scan (Some e) None true)
  = Ok (if Qlt_bool (sample_time h (default p0 (last rest))) e then (None, None)
        else (Some e, Some (sample_time h (default p0 (last rest))))).
Proof.
  intros Hw Hsingle. unfold finish. simpl. rewrite last_cons_Some.
  destruct (well_formed_sample_time h _ Hw) as [pl ->]. unfold try_except.
  unfold single_sample, implied_entry, check_order.
  destruct rest as [|a rest]; simpl; [| reflexivity].
  by rewrite (Hsingle eq_refl).
Qed.

(** X2. A trajectory of well-formed samples that are all outside the
    polygon has the interval (absent, absent), so its PET against any
    trajectory of records is [+infinity]. *)
Theorem never_inside_no_interval (h : heap) (traj : trajectory) (poly : polygon) :
  Forall (fun e => sample_inside SA sc h poly e false) traj ->
  _get_entry_exit_times SA sc h traj poly = Ok (None, None)
  /\ forall other,
       forallb is_record traj = true -> forallb is_record other = true ->
       snd (calculate_pet SA sc h traj other poly) = Ok PInf
       /\ snd (calculate_pet SA sc h other traj poly) = Ok PInf.
Proof.
  intros Hout.
  assert (E : _get_entry_exit_times SA sc h traj poly = Ok (None, None)).
  { unfold _get_entry_exit_times.
    destruct traj as [|p0 rest]; [reflexivity |]. destruct poly as [|v tl]; [reflexivity |].
    destruct (length (v :: tl) <? 3)%nat; [reflexivity |].
    apply Forall_cons in Hout as [H0 Hrest].
    destruct (sample_inside_well_formed h _ p0 false H0) as (p & G0 & Hb & Hw).
    rewrite G0. unfold_goal. rewrite Hb.
    pose proof (scan_stay h (v :: tl) false rest [] p0 (mk_scan None None false)
                  Hw Hrest eq_refl) as Hscan.
    rewrite app_nil_r in Hscan. rewrite Hscan. reflexivity. }
  split; [exact E |]. intros other Ht Ho.
  rewrite !calculate_pet_records, E by assumption.
  destruct (get_entry_exit_times_total SA sc h other poly) as [[Te Tx] ->]. simpl.
  split; [reflexivity |]. f_equal. apply pet_of_intervals_absent. tauto.
Qed.

(** X3. First entry, first exit.  On a trajectory made of well-formed
    samples outside the polygon (possibly none), then samples inside it
    (at least one), then a sample outside, the entry is the time of the
    first sample when that one is inside and otherwise the midpoint of
    the times around the entry; the exit is the midpoint of the times
    around the exit; the interval is voided when these are out of order.
    Whatever follows the first exit is not read. *)
Theorem first_entry_first_exit (h : heap) (poly : polygon)
    (outs : trajectory) (i0 : element) (ins : trajectory) (o : element)
    (post : trajectory) :
  Forall (fun e => sample_inside SA sc h poly e false) outs ->
  sample_inside SA sc h poly i0 true ->
  Forall (fun e => sample_inside SA sc h poly e true) ins ->
  sample_inside SA sc h poly o false ->
  let entry :=
    match last outs with
    | Some lo => (sample_time h lo + sample_time h i0) / 2
    | None => sample_time h i0
    end in
  let exit := (sample_time h (default i0 (last ins)) + sample_time h o) / 2 in
  _get_entry_exit_times SA sc h (outs ++ i0 :: ins ++ o :: post) poly
  = Ok (if Qlt_bool exit entry then (None, None) else (Some entry, Some exit)).
Proof.
  intros Houts Hi0 Hins Ho entry exit.
  destruct (sample_inside_well_formed h poly i0 true Hi0) as (pi & Gi & Hbi & Hwi).
  assert (Hpoly : (length poly <? 3)%nat = false).
  { destruct (length poly <? 3)%nat eqn:E; [| reflexivity].
    apply Nat.ltb_lt in E.
    rewrite (is_inside_polygon_degenerate SA sc pi poly E) in Hbi. discriminate. }
  unfold _get_entry_exit_times.
  destruct poly as [|v tl]; [discriminate |]. rewrite Hpoly.
  destruct Houts as [|o1 outs Ho1 Houts]; simpl app; cbv beta iota.
  - rewrite Gi. unfold_goal. rewrite Hbi.
    rewrite (scan_inside_until_exit h (v :: tl) i0 ins o post)
      by first [assumption | reflexivity].
    simpl. rewrite finish_after_exit; [reflexivity |].
    simpl. rewrite length_app. simpl. lia.
  - destruct (sample_inside_well_formed h _ o1 false Ho1) as (p1 & G1 & Hb1 & Hw1).
    rewrite G1. unfold_goal. rewrite Hb1.
    rewrite (scan_stay h (v :: tl) false outs _ o1 (mk_scan None None false)
               Hw1 Houts eq_refl).
    assert (Hwl : is_malformed h (default o1 (last outs)) = false).
    { destruct (last outs) as [lo|] eqn:El; [| exact Hw1].
      apply last_Some_elem_of in El. rewrite Forall_forall in Houts.
      by destruct (sample_inside_well_formed h _ lo false (Houts lo El)) as (? & _ & _ & ?). }
    destruct (well_formed_sample_time h _ Hwl) as [pl Gl].
    simpl scan.
    rewrite (scan_pair_well_formed SA sc h (v :: tl) _ i0 _ _ _ _ _ true Gl Gi Hbi).
    unfold_goal.
    rewrite (scan_inside_until_exit h (v :: tl) i0 ins o post)
      by first [assumption | reflexivity].
    simpl. rewrite finish_after_exit.
    + subst entry exit. by rewrite last_cons_Some.
    + simpl. rewrite !length_app. simpl. lia.
Qed.

(** X4. Still inside when the samples end.  On a trajectory made of
    well-formed samples outside the polygon (possibly none) followed by
    samples inside it up to its end, the entry is the time of the first
    sample when that one is inside and otherwise the midpoint of the
    times around the entry, and the exit is the time of the last sample;
    a single sample inside gives entry and exit equal to its time. *)
Theorem inside_until_the_end (h : heap) (poly : polygon)
    (outs : trajectory) (i0 : element) (ins : trajectory) :
  Forall (fun e => sample_inside SA sc h poly e false) outs ->
  sample_inside SA sc h poly i0 true ->
  Forall (fun e => sample_inside SA sc h poly e true) ins ->
  let entry :=
    match last outs with
    | Some lo => (sample_time h lo + sample_time h i0) / 2
    | None => sample_time h i0
    end in
  let exit := sample_time h (default i0 (last ins)) in
  _get_entry_exit_times SA sc h (outs ++ i0 :: ins) poly
  = Ok (if Qlt_bool exit entry then (None, None) else (Some entry, Some exit)).
Proof.
  intros Houts Hi0 Hins entry exit.
  destruct (sample_inside_well_formed h poly i0 true Hi0) as (pi & Gi & Hbi & Hwi).
  assert (Hpoly : (length poly <? 3)%nat = false).
  { destruct (length poly <? 3)%nat eqn:E; [| reflexivity].
    apply Nat.ltb_lt in E.
    rewrite (is_inside_polygon_degenerate SA sc pi poly E) in Hbi. discriminate. }
  assert (Hwl : is_malformed h (default i0 (last ins)) = false).
  { destruct (last ins) as [il|] eqn:El; [| exact Hwi].
    apply last_Some_elem_of in El. rewrite Forall_forall in Hins.
    by destruct (sample_inside_well_formed h _ il true (Hins il El)) as (? & _ & _ & ?). }
  unfold _get_entry_exit_times.
  destruct poly as [|v tl]; [discriminate |]. rewrite Hpoly.
  destruct Houts as [|o1 outs Ho1 Houts]; simpl app; cbv beta iota.
  - rewrite Gi. unfold_goal. rewrite Hbi.
    pose proof (scan_stay h (v :: tl) true ins [] i0 (mk_scan (Some (sample_time h i0)) None true)
                  Hwi Hins eq_refl) as Hscan.
    rewrite app_nil_r in Hscan. rewrite Hscan. simpl.
    by rewrite finish_still_inside.
  - destruct (sample_inside_well_formed h _ o1 false Ho1) as (p1 & G1 & Hb1 & Hw1).
    rewrite G1. unfold_goal. rewrite Hb1.
    rewrite (scan_stay h (v :: tl) false outs _ o1 (mk_scan None None false)
               Hw1 Houts eq_refl).
    assert (Hwo : is_malformed h (default o1 (last outs)) = false).
    { destruct (last outs) as [lo|] eqn:El; [| exact Hw1].
      apply last_Some_elem_of in El. rewrite Forall_forall in Houts.
      by destruct (sample_inside_well_formed h _ lo false (Houts lo El)) as (? & _ & _ & ?). }
    destruct (well_formed_sample_time h _ Hwo) as [pl Gl].
    simpl scan.
    rewrite (scan_pair_well_formed SA sc h (v :: tl) _ i0 _ _ _ _ _ true Gl Gi Hbi).
    unfold_goal.
    pose proof (scan_stay h (v :: tl) true ins [] i0
                  (mk_scan (Some ((sample_time h (default o1 (last outs))
                                   + sample_time h i0) / 2)) None true)
                  Hwi Hins eq_refl) as Hscan.
    rewrite app_nil_r in Hscan. rewrite Hscan. simpl.
    assert (Hlast : default o1 (last (outs ++ i0 :: ins)) = default i0 (last ins)).
    { rewrite last_app, last_cons. by destruct (last ins). }
    rewrite finish_still_inside; rewrite ?Hlast; [| exact Hwl |].
    + subst entry exit. by rewrite last_cons_Some.
    + intros Hnil. by destruct outs.
Qed.

End ExtractionValues.

(** ** Further properties of [calculate_pet] *)

Section CalculatePetMore.

Variable SA : bool.
Variable sc : Q * Q -> polygon -> bool.

Lemma reached_records_elem (traj_list : trajectory) (l : loc) :
  l ∈ reached_records traj_list -> Rec l ∈ traj_list.
Proof.
  induction traj_list as [|[l'|v] rest IH]; simpl; intros Hin.
  - by apply elem_of_nil in Hin.
  - apply elem_of_cons in Hin as [->|Hin]; [left | right; auto].
  - by apply elem_of_nil in Hin.
Qed.

Lemma touched_records_elem (veh ped : trajectory) (l : loc) :
  l ∈ touched_records veh ped -> Rec l ∈ veh ++ ped.
Proof.
  unfold touched_records. rewrite !elem_of_app. intros [Hin|Hin].
  - left. by apply reached_records_elem.
  - right. destruct (forallb is_record veh); [by apply reached_records_elem |].
    by apply elem_of_nil in Hin.
Qed.

(** The final store of [calculate_pet], whatever the trajectories hold. *)
Lemma calculate_pet_fst (h : heap) (veh ped : trajectory) (poly : polygon) (l : loc) :
  fst (calculate_pet SA sc h veh ped poly) l
  = if decide (l ∈ touched_records veh ped) then with_defaults (h l) else h l.
Proof.
  unfold calculate_pet, touched_records.
  pose proof (normalize_fst h veh l) as F1.
  destruct (forallb is_record veh) eqn:Hv.
  - pose proof (normalize_records h veh Hv) as H1.
    destruct (normalize h veh) as [h1 r1]. simpl in H1, F1. subst r1.
    pose proof (normalize_fst h1 ped l) as F2.
    assert (E : fst (let (h2, r) := normalize h1 ped in
                     match r with
                     | Ok _ =>
                         (h2,
                          _get_entry_exit_times SA sc h2 veh poly
                          ≫= λ '(T_veh_entry, T_veh_exit),
                               _get_entry_exit_times SA sc h2 ped poly
                               ≫= λ '(T_ped_entry, T_ped_exit),
                                    Ok (pet_of_intervals T_veh_entry T_veh_exit
                                          T_ped_entry T_ped_exit))
                     | Raise e => (h2, Raise e)
                     end) = fst (normalize h1 ped)).
    { destruct (normalize h1 ped) as [h2 [|]]; reflexivity. }
    rewrite E, F2, F1.
    destruct (decide (l ∈ reached_records ped)), (decide (l ∈ reached_records veh));
      rewrite ?with_defaults_idem;
      [rewrite decide_True by set_solver .. | rewrite decide_False by set_solver]; done.
  - pose proof (normalize_not_records h veh Hv) as H1.
    destruct (normalize h veh) as [h1 r1]. simpl in H1, F1. subst r1. simpl.
    by rewrite app_nil_r.
Qed.

(** The outcome depends on the store only through 'time', 'x', 'y'. *)
Lemma calculate_pet_snd_same (h h' : heap) (veh ped : trajectory) (poly : polygon) :
  same_coords h h' ->
  snd (calculate_pet SA sc h' veh ped poly) = snd (calculate_pet SA sc h veh ped poly).
Proof.
  intros Hsame. destruct (forallb is_record (veh ++ ped)) eqn:Hall.
  - rewrite forallb_app in Hall. apply andb_true_iff in Hall as [Hv Hp].
    rewrite !calculate_pet_records by assumption.
    by rewrite !(get_entry_exit_times_same SA sc h h').
  - by rewrite !calculate_pet_not_records.
Qed.

(** X5. A second call of [calculate_pet] with the same arguments, on the
    store the first call left, gives the same outcome and changes
    nothing further: the defaults it writes do not influence the PET. *)
Theorem calculate_pet_repeatable (h : heap) (veh ped : trajectory) (poly : polygon) :
  let first := calculate_pet SA sc h veh ped poly in
  let second := calculate_pet SA sc (fst first) veh ped poly in
  snd second = snd first /\ forall l, fst second l = fst first l.
Proof.
  intros first second. split.
  - apply calculate_pet_snd_same. intros l. subst first.
    rewrite calculate_pet_fst. destruct (decide _); [apply with_defaults_coords | done].
  - intros l. subst second first. rewrite !calculate_pet_fst.
    destruct (decide _); [apply with_defaults_idem | done].
Qed.

Lemma with_defaults_keeps (d : point_dict) (k : string) (v : pyval) :
  tags d !! k = Some v -> tags (with_defaults d) !! k = Some v.
Proof.
  intros Hk. destruct (decide (k = "speed")) as [->|Hs].
  - by rewrite with_defaults_speed, Hk.
  - destruct (decide (k = "id")) as [->|Hi].
    + by rewrite with_defaults_id, Hk.
    + unfold with_defaults. by rewrite !setdefault_lookup_ne.
Qed.

(** X6. What [calculate_pet] never changes, for any input: the keys
    'time', 'x', 'y' of every dictionary, every key other than 'speed'
    and 'id', every value already stored under any key, and every
    dictionary that neither trajectory refers to. *)
Theorem calculate_pet_frame (h : heap) (veh ped : trajectory) (poly : polygon) (l : loc) :
  let h' := fst (calculate_pet SA sc h veh ped poly) in
  (f_time (h' l) = f_time (h l) /\ f_x (h' l) = f_x (h l) /\ f_y (h' l) = f_y (h l))
  /\ (forall k v, tags (h l) !! k = Some v -> tags (h' l) !! k = Some v)
  /\ (forall k, k <> "speed" -> k <> "id" -> tags (h' l) !! k = tags (h l) !! k)
  /\ (Rec l ∉ veh ++ ped -> h' l = h l).
Proof.
  intros h'. subst h'. rewrite calculate_pet_fst.
  destruct (decide (l ∈ touched_records veh ped)) as [Hin|Hin].
  - split; [apply with_defaults_coords |].
    split; [intros k v; apply with_defaults_keeps |].
    split; [intros k Hs Hi; unfold with_defaults; by rewrite !setdefault_lookup_ne |].
    intros Hnot. by apply touched_records_elem in Hin.
  - repeat split; auto.
Qed.

(** X7. A PET of exactly 0 is also what [calculate_pet] returns when
    one agent's interval is a single instant strictly inside the other
    agent's interval: neither the overlap test nor either gap test
    applies, and the final [else] answers 0.0. *)
Theorem instant_inside_interval_gives_zero (h : heap) (veh ped : trajectory)
    (poly : polygon) (ve vx pe px : Q) :
  forallb is_record veh = true -> forallb is_record ped = true ->
  _get_entry_exit_times SA sc h veh poly = Ok (Some ve, Some vx) ->
  _get_entry_exit_times SA sc h ped poly = Ok (Some pe, Some px) ->
  ~ Qmax ve pe < Qmin vx px -> pe < vx -> ve < px ->
  snd (calculate_pet SA sc h veh ped poly) = Ok (Fin 0)
  /\ ((ve == vx /\ pe < ve /\ ve < px) \/ (pe == px /\ ve < pe /\ pe < vx)).
Proof.
  intros Hv Hp Ev Ep Hno H1 H2.
  pose proof (get_entry_exit_times_ordered _ _ _ _ _ _ _ Ev) as Ov.
  pose proof (get_entry_exit_times_ordered _ _ _ _ _ _ _ Ep) as Op.
  rewrite <- py_max_Qmax, <- py_min_Qmin in Hno.
  split.
  - rewrite calculate_pet_records, Ev, Ep by assumption. simpl.
    unfold pet_of_intervals.
    destruct (Qlt_bool (py_max ve pe) (py_min vx px)) eqn:E;
      [apply Qlt_bool_iff in E; contradiction |].
    rewrite (proj2 (Qle_bool_false vx pe) H1), (proj2 (Qle_bool_false px ve) H2).
    reflexivity.
  - destruct (py_max_spec ve pe) as [[? Hm]|[? Hm]], (py_min_spec vx px) as [[? Hn]|[? Hn]];
      rewrite Hm, Hn in Hno; first [left; split; lra | right; split; lra | exfalso; lra].
Qed.

End CalculatePetMore.

(** ** Further properties of the manual point-in-polygon test *)


Arguments ray_step : simpl never.

(** An edge between two vertices of the same height never toggles. *)
Lemma ray_step_level (x y : Q) (p2x p2y : Q) (st : ray_state) :
  p1y st == p2y ->
  ray_step x y (p2x, p2y) st = Ok (mk_ray (inside st) p2x p2y (xinters st)).
Proof.
  intros Hy. unfold ray_step.
  destruct (Qlt_bool (py_min (p1y st) p2y) y) eqn:E1; [| reflexivity].
  destruct (Qle_bool y (py_max (p1y st) p2y)) eqn:E2; [| reflexivity].
  exfalso. order_facts.
  destruct (py_min_spec (p1y st) p2y) as [[? Hm]|[? Hm]],
           (py_max_spec (p1y st) p2y) as [[? HM]|[? HM]];
    rewrite Hm in E1; rewrite HM in E2; lra.
Qed.

(** A vertical edge toggles exactly when the point's height is within
    the edge (lower end excluded, upper end included) and the point is
    not to the right of it. *)
Lemma ray_step_vertical (x y : Q) (p2x p2y : Q) (st : ray_state) :
  p1x st == p2x ->
  exists xi,
    ray_step x y (p2x, p2y) st
    = Ok (mk_ray (xorb (inside st)
                    (Qlt_bool (py_min (p1y st) p2y) y
                     && Qle_bool y (py_max (p1y st) p2y)
                     && Qle_bool x (py_max (p1x st) p2x)))
            p2x p2y xi).
Proof.
  intros Hx. unfold ray_step.
  destruct (Qlt_bool (py_min (p1y st) p2y) y) eqn:E1; simpl;
    [| rewrite xorb_false_r; eauto].
  destruct (Qle_bool y (py_max (p1y st) p2y)) eqn:E2; simpl;
    [| rewrite xorb_false_r; eauto].
  destruct (Qle_bool x (py_max (p1x st) p2x)) eqn:E3; simpl;
    [| rewrite xorb_false_r; eauto].
  rewrite (proj2 (Qeq_bool_iff _ _) Hx). unfold_goal. rewrite xorb_true_r. eauto.
Qed.

(** X9. On an axis-aligned rectangle with corners [(x0,y0)] and
    [(x1,y1)], listed as the default encroachment areas are, manual ray
    casting answers true exactly for the points with [x0 < x <= x1] and
    [y0 < y <= y1]: the interior, the right and top edges count as
    inside, the left and bottom edges as outside. *)
Theorem manual_ray_casting_rectangle (x0 y0 x1 y1 x y : Q) :
  x0 <= x1 -> y0 <= y1 ->
  exists b, manual_ray_casting (x, y) (rectangle x0 y0 x1 y1) = Ok b
            /\ (b = true <-> x0 < x /\ x <= x1 /\ y0 < y /\ y <= y1).
Proof.
  intros Hx Hy. unfold manual_ray_casting, rectangle. simpl.
  rewrite (ray_step_level x y x0 y0) by reflexivity. unfold_goal.
  rewrite (ray_step_level x y x1 y0) by reflexivity. unfold_goal.
  destruct (ray_step_vertical x y x1 y1 (mk_ray false x1 y0 None)) as [xi1 ->];
    [reflexivity |]. unfold_goal.
  rewrite (ray_step_level x y x0 y1) by reflexivity. unfold_goal.
  destruct (ray_step_vertical x y x0 y0
              (mk_ray (Qlt_bool (py_min y0 y1) y && Qle_bool y (py_max y0 y1)
                       && Qle_bool x (py_max x1 x1)) x0 y1 xi1)) as [xi2 ->];
    [reflexivity |]. unfold_goal.
  eexists. split; [reflexivity |].
  destruct (py_min_spec y0 y1) as [[? ->]|[? ->]], (py_max_spec y0 y1) as [[? ->]|[? ->]],
           (py_min_spec y1 y0) as [[? ->]|[? ->]], (py_max_spec y1 y0) as [[? ->]|[? ->]],
           (py_max_spec x1 x1) as [[? ->]|[? ->]], (py_max_spec x0 x0) as [[? ->]|[? ->]];
    try lra;
    repeat match goal with
           | |- context [Qlt_bool ?a ?b] => destruct (Qlt_bool a b) eqn:?
           | |- context [Qle_bool ?a ?b] => destruct (Qle_bool a b) eqn:?
           end;
    order_facts; simpl; split; intros; try discriminate; try lra; try reflexivity.
Qed.

(** ** Further properties of the optimizer *)

Section OptimizerMore.

Variable sim : nat -> Q -> pet * pet * Q.

(** The inner loop as list comprehensions over the call numbers. *)
Lemma run_many_spec (runs : nat) (av_speed : Q) (acc : run_acc) :
  run_many sim runs av_speed acc
  = mk_acc (current_sim_run_number acc + runs)
      (run_traversal_times acc
       ++ List.filter (fun t => Qle_bool 0 t)
            (List.map (fun k => (sim k av_speed).2)
               (seq (S (current_sim_run_number acc)) runs)))
      (successful_pet_constraint_runs acc
       + length (List.filter
                   (fun k => constraint_met (sim k av_speed).1.1 (sim k av_speed).1.2)
                   (seq (S (current_sim_run_number acc)) runs))).
Proof.
  revert acc. induction runs as [|runs IH]; intros acc.
  - simpl. rewrite app_nil_r, !Nat.add_0_r. by destruct acc.
  - simpl run_many. rewrite IH. unfold run_once. simpl seq. simpl List.map. simpl List.filter.
    destruct (sim (S (current_sim_run_number acc)) av_speed) as [[pet1 pet2] tt]. simpl.
    f_equal.
    + lia.
    + destruct (Qle_bool 0 tt); [by rewrite <- app_assoc | reflexivity].
    + destruct (constraint_met pet1 pet2); simpl; lia.
Qed.

Lemma filter_length_le {A : Type} (f : A -> bool) (l : list A) :
  (length (List.filter f l) <= length l)%nat.
Proof. induction l as [|a l IH]; simpl; [lia |]. destruct (f a); simpl; lia. Qed.

Lemma filter_length_all {A : Type} (f : A -> bool) (l : list A) :
  length (List.filter f l) = length l <-> forall a, In a l -> f a = true.
Proof.
  induction l as [|a l IH]; simpl; [by split |].
  pose proof (filter_length_le f l) as Hle.
  destruct (f a) eqn:E; simpl.
  - split.
    + intros Hlen b [<-|Hb]; [done |]. apply IH; [lia | done].
    + intros Hall. f_equal. apply IH. auto.
  - split; [lia |]. intros Hall. rewrite Hall in E by auto. discriminate.
Qed.

Lemma sum_nonneg (l : list Q) :
  (forall t, In t l -> 0 <= t) -> 0 <= foldr Qplus 0 l.
Proof.
  induction l as [|a l IH]; simpl; intros Hall; [lra |].
  pose proof (Hall a (or_introl eq_refl)). pose proof (IH (fun t Ht => Hall t (or_intror Ht))).
  lra.
Qed.

Lemma mean_nonneg (l : list Q) : (forall t, In t l -> 0 <= t) -> 0 <= mean l.
Proof.
  intros Hall. unfold mean, Qdiv. apply Qmult_le_0_compat; [by apply sum_nonneg |].
  apply Qinv_le_0_compat. unfold Qle. simpl. lia.
Qed.

(** The loop over the runs of one candidate, as aggregates. *)
Lemma evaluate_candidate_eq (counter : nat) (av_speed : Q) :
  evaluate_candidate sim counter av_speed
  = ((counter + N_SIM_RUNS_PER_AV_SPEED)%nat,
     (av_speed,
      inject_Z (Z.of_nat (length (met_runs sim counter av_speed)))
      / inject_Z (Z.of_nat N_SIM_RUNS_PER_AV_SPEED),
      match valid_traversals sim counter av_speed with
      | [] => -1
      | _ => mean (valid_traversals sim counter av_speed)
      end)).
Proof. unfold evaluate_candidate. cbv zeta. rewrite run_many_spec. reflexivity. Qed.

Lemma met_runs_at_most (counter : nat) (av_speed : Q) :
  (length (met_runs sim counter av_speed) <= N_SIM_RUNS_PER_AV_SPEED)%nat.
Proof.
  unfold met_runs. etransitivity; [apply filter_length_le |].
  unfold run_numbers. by rewrite length_seq.
Qed.

(** X10. One candidate's statistics, read as aggregates over its five
    calls: the entry pairs the speed with the fraction of calls that
    meet the PET constraint and with the mean of the valid (not
    negative) traversal times, or the sentinel -1.0 when none is valid;
    the call counter advances by five.  The probability is [k/5] for an
    integer [k] between 0 and 5, so it lies in [0, 1]. *)
Theorem evaluate_candidate_aggregates (counter : nat) (av_speed : Q) :
  evaluate_candidate sim counter av_speed
  = ((counter + N_SIM_RUNS_PER_AV_SPEED)%nat,
     (av_speed,
      inject_Z (Z.of_nat (length (met_runs sim counter av_speed)))
      / inject_Z (Z.of_nat N_SIM_RUNS_PER_AV_SPEED),
      match valid_traversals sim counter av_speed with
      | [] => -1
      | _ => mean (valid_traversals sim counter av_speed)
      end))
  /\ (length (met_runs sim counter av_speed) <= N_SIM_RUNS_PER_AV_SPEED)%nat
  /\ 0 <= (evaluate_candidate sim counter av_speed).2.1.2 <= 1.
Proof.
  pose proof (evaluate_candidate_eq counter av_speed) as E.
  pose proof (met_runs_at_most counter av_speed) as Hle.
  split; [exact E |]. split; [exact Hle |].
  rewrite E. simpl. unfold N_SIM_RUNS_PER_AV_SPEED in *.
  set (k := length (met_runs sim counter av_speed)) in *.
  unfold Qdiv, Qle, Qmult, Qinv, inject_Z. simpl. lia.
Qed.

(** X11. The average traversal time of a candidate is the sentinel -1.0
    exactly when none of its five calls returns a valid traversal time;
    otherwise it is not negative, so a defined average can never be taken
    for the sentinel. *)
Theorem average_traversal_sentinel (counter : nat) (av_speed : Q) :
  let avg := (evaluate_candidate sim counter av_speed).2.2 in
  ((forall k, In k (run_numbers counter) -> (sim k av_speed).2 < 0) -> avg = -1)
  /\ ((exists k, In k (run_numbers counter) /\ 0 <= (sim k av_speed).2) -> 0 <= avg)
  /\ (metric_defined avg <->
      exists k, In k (run_numbers counter) /\ 0 <= (sim k av_speed).2).
Proof.
  intros avg.
  assert (Eavg : avg = match valid_traversals sim counter av_speed with
                       | [] => -1
                       | _ => mean (valid_traversals sim counter av_speed)
                       end).
  { subst avg. by rewrite evaluate_candidate_eq. }
  assert (Hvalid : forall t, In t (valid_traversals sim counter av_speed) -> 0 <= t).
  { intros t Ht. apply filter_In in Ht as [_ Ht]. by apply Qle_bool_iff. }
  assert (Hnone : (forall k, In k (run_numbers counter) -> (sim k av_speed).2 < 0) ->
                  valid_traversals sim counter av_speed = []).
  { intros Hall. destruct (valid_traversals sim counter av_speed) as [|t l] eqn:E;
      [reflexivity |].
    assert (Ht : In t (valid_traversals sim counter av_speed)) by (rewrite E; by left).
    apply filter_In in Ht as [Hin Ht]. apply in_map_iff in Hin as (k & <- & Hk).
    apply Qle_bool_iff in Ht. specialize (Hall k Hk). lra. }
  assert (Hsome : (exists k, In k (run_numbers counter) /\ 0 <= (sim k av_speed).2) ->
                  valid_traversals sim counter av_speed <> [] /\ 0 <= avg).
  { intros (k & Hk & Ht).
    assert (Hin : In (sim k av_speed).2 (valid_traversals sim counter av_speed)).
    { apply filter_In. split; [apply in_map_iff; eauto | by apply Qle_bool_iff]. }
    split; [intros E; by rewrite E in Hin |].
    rewrite Eavg. destruct (valid_traversals sim counter av_speed) as [|t l] eqn:E;
      [by destruct Hin |].
    apply mean_nonneg. by rewrite <- E in *. }
  split; [intros Hall; by rewrite Eavg, Hnone |].
  split; [intros Hex; by apply Hsome |].
  split.
  - intros Hdef.
    destruct (valid_traversals sim counter av_speed) as [|t l] eqn:E.
    + exfalso. apply Hdef. by rewrite Eavg.
    + assert (Ht : In t (valid_traversals sim counter av_speed)) by (rewrite E; by left).
      apply filter_In in Ht as [Hin Ht]. apply in_map_iff in Hin as (k & <- & Hk).
      apply Qle_bool_iff in Ht. eauto.
  - intros Hex. apply Hsome in Hex as [_ Hge]. unfold metric_defined. lra.
Qed.

(** X12. With five runs per candidate and a target of 0.90, a candidate
    reaches the target exactly when every one of its five runs meets the
    PET constraint: a single failed run disqualifies it. *)
Theorem eligible_iff_all_runs_met (counter : nat) (av_speed : Q) :
  PROB_CONSTRAINT_SATISFIED_THRESHOLD <= (evaluate_candidate sim counter av_speed).2.1.2
  <-> forall k, In k (run_numbers counter) ->
                constraint_met (sim k av_speed).1.1 (sim k av_speed).1.2 = true.
Proof.
  pose proof (met_runs_at_most counter av_speed) as Hle.
  rewrite evaluate_candidate_eq. cbn [fst snd].
  pose proof (filter_length_all
                (fun k => constraint_met (sim k av_speed).1.1 (sim k av_speed).1.2)
                (run_numbers counter)) as Hall.
  fold (met_runs sim counter av_speed) in Hall. cbv beta in Hall.
  rewrite <- Hall.
  replace (length (run_numbers counter)) with N_SIM_RUNS_PER_AV_SPEED
    by (unfold run_numbers; by rewrite length_seq).
  clear Hall.
  unfold N_SIM_RUNS_PER_AV_SPEED, PROB_CONSTRAINT_SATISFIED_THRESHOLD in *.
  set (k := length (met_runs sim counter av_speed)) in *. clearbody k.
  unfold Qdiv, Qle, Qmult, Qinv, inject_Z. simpl. lia.
Qed.

Lemma summarize_cons (counter : nat) (av_speed : Q) (rest : list Q) :
  summarize sim counter (av_speed :: rest)
  = (evaluate_candidate sim counter av_speed).2
    :: summarize sim (counter + N_SIM_RUNS_PER_AV_SPEED) rest.
Proof.
  change (summarize sim counter (av_speed :: rest))
    with (let '(counter', entry) := evaluate_candidate sim counter av_speed in
          entry :: summarize sim counter' rest).
  by rewrite evaluate_candidate_eq.
Qed.

(** The summary holds one entry per candidate speed, in the order 5, 10,
    15; the calls are numbered through: 1-5, 6-10, 11-15. *)
Lemma optimization_summary_entries :
  optimization_summary sim
  = [(evaluate_candidate sim 0 (10 # 2)).2;
     (evaluate_candidate sim 5 (20 # 2)).2;
     (evaluate_candidate sim 10 (30 # 2)).2].
Proof.
  unfold optimization_summary.
  change (linspace AV_MIN_SPEED_MPS AV_MAX_SPEED_MPS NUM_AV_SPEED_STEPS)
    with [10 # 2; 20 # 2; 30 # 2].
  by rewrite !summarize_cons.
Qed.

(** X13. The report is never a fabricated success: an optimal speed is
    reported only for a candidate of the summary that reaches the target
    probability, with that candidate's own statistics; and "no speed
    found" is reported exactly when no candidate reaches the target, with
    a best compromise taken from the summary. *)
Theorem run_optimizer_report_sound :
  match run_optimizer true sim with
  | OptimalFound s t p =>
      exists avg, t = Fin avg /\ (s, p, avg) ∈ optimization_summary sim
                  /\ PROB_CONSTRAINT_SATISFIED_THRESHOLD <= p
  | NoSpeedFound best_compromise =>
      (forall c, c ∈ optimization_summary sim ->
                 c.1.2 < PROB_CONSTRAINT_SATISFIED_THRESHOLD)
      /\ exists c, best_compromise = Some c /\ c ∈ optimization_summary sim
  | CannotRun => False
  end.
Proof.
  unfold run_optimizer.
  destruct (eligible_speeds (optimization_summary sim)) as [|e0 el] eqn:Hel.
  - assert (Hne : optimization_summary sim <> []).
    { rewrite optimization_summary_entries. discriminate. }
    destruct (select_best_compromise _ Hel Hne) as (c & -> & Hin & _).
    split; [| eauto].
    intros [[s p] tt] Hc. simpl.
    destruct (Qlt_le_dec p PROB_CONSTRAINT_SATISFIED_THRESHOLD) as [|Hge]; [assumption |].
    assert (Hin' : (s, tt, p) ∈ eligible_speeds (optimization_summary sim)).
    { by apply elem_of_eligible_speeds. }
    rewrite Hel in Hin'. by apply elem_of_nil in Hin'.
  - destruct (select_optimal (optimization_summary sim)) as (s & tt & p & -> & Hin & _).
    + apply optimization_summary_speeds.
    + by rewrite Hel.
    + apply elem_of_eligible_speeds in Hin as [Hin Hp]. eauto.
Qed.

End OptimizerMore.

(** ** Properties of [execute_single_sumo_run] *)

Lemma and_then_fst {S} (P : S -> Prop) (r : interrupted S) (k : S -> interrupted S) :
  P (fst r) -> (forall st, P st -> P (fst (k st))) -> P (fst (and_then r k)).
Proof. destruct r as [st [e|]]; simpl; auto. Qed.

Lemma except_traci_fst {S} (r : interrupted S) : fst (except_traci r) = fst r.
Proof. by destruct r as [st [[]|]]. Qed.

Lemma speed_block_cases (step : nat) (listed : call bool) (commands : list (call unit))
    (attempted : bool) :
  exists f e, speed_block step listed commands attempted = (f, e).
Proof. destruct (speed_block step listed commands attempted); eauto. Qed.

(** A property of the state that the three kinds of block keep is kept by
    a step. *)
Lemma run_step_preserves (P : run_state -> Prop) (step : nat) (a : step_answers)
    (st : run_state) :
  (forall st f, P st -> P (mk_run f (j2 st) (data st))) ->
  (forall st t, ans_getTime a = Returns t -> P st -> P (fst (car_block a t st))) ->
  (forall st t, P st ->
     P (fst (ped_block (ans_ped1_listed a) (ans_ped1_getPosition a)
               append_ped1 "ped_1" t st))) ->
  (forall st t, P st ->
     P (fst (ped_block (ans_ped2_listed a) (ans_ped2_getPosition a)
               append_ped2 "ped_2" t st))) ->
  P st -> P (fst (run_step step a st)).
Proof.
  intros Hflags Hcar Hped1 Hped2 HP. unfold run_step.
  destruct (ans_getTime a) as [t|e] eqn:Et; [| exact HP].
  destruct (ans_simulationStep a) as [u|e]; [| exact HP].
  apply and_then_fst.
  { destruct (speed_block _ _ _ _) as [f e]. simpl. by apply Hflags. }
  intros st1 H1. apply and_then_fst.
  { destruct (speed_block _ _ _ _) as [f e]. simpl. by apply Hflags. }
  intros st2 H2. apply and_then_fst.
  { destruct (speed_block _ _ _ _) as [f e]. simpl. by apply Hflags. }
  intros st3 H3. apply and_then_fst; [by apply Hcar |].
  intros st4 H4. apply and_then_fst; [by apply Hped1 |].
  intros st5 H5. by apply Hped2.
Qed.

Lemma run_steps_preserves (P : nat -> run_state -> Prop) (script : nat -> step_answers)
    (steps : list nat) (st : run_state) (n : nat) :
  (forall i st, In i steps -> P i st -> P i (fst (run_step i (script i) st))) ->
  (forall i j st, (i <= j)%nat -> P i st -> P j st) ->
  (forall i, In i steps -> (n <= i)%nat) -> Sorted.StronglySorted le steps ->
  P n st -> exists m, (n <= m)%nat /\ P m (fst (run_steps script steps st)).
Proof.
  intros Hstep Hmono. revert st n.
  induction steps as [|i rest IH]; intros st n Hge Hsorted HP; simpl; [eauto |].
  apply Sorted.StronglySorted_inv in Hsorted as [Hsorted Hall].
  assert (Hi : P i (fst (run_step i (script i) st))).
  { apply Hstep; [by left |]. apply (Hmono n); [apply Hge; by left | exact HP]. }
  destruct (run_step i (script i) st) as [st1 [e|]]; simpl in *.
  - exists i. split; [apply Hge; by left | exact Hi].
  - destruct (IH (fun j s Hj => Hstep j s (or_intror Hj)) st1 i) as (m & Hm & HPm);
      [| exact Hsorted | exact Hi |].
    + intros j Hj. rewrite Forall_forall in Hall. apply Hall. by apply list_elem_of_In.
    + exists m. split; [| exact HPm]. specialize (Hge i (or_introl eq_refl)). lia.
Qed.

Lemma seq_sorted (start len : nat) : Sorted.StronglySorted le (seq start len).
Proof.
  revert start. induction len as [|len IH]; intros start; simpl; constructor; [apply IH |].
  apply Forall_forall. intros j Hj. apply list_elem_of_In, in_seq in Hj. lia.
Qed.

(** *** The traversal time *)

Lemma track_j2_consistent (lane : string) (t : Q) (s : j2_state) :
  0 <= t ->
  (car0_on_j2_segment s = true -> sim_time_car0_enters_j2 s <= t) ->
  j2_consistent s -> j2_consistent (track_j2 lane t s).
Proof.
  intros Ht Hle Hs. unfold track_j2.
  destruct (String.eqb lane J2_INTERNAL_LANE_ID).
  - destruct (car0_on_j2_segment s) eqn:Eon; simpl; [exact Hs |].
    destruct Hs as [(_ & _ & Hx)|(Hon & _)]; [| congruence].
    right. simpl. auto.
  - destruct (car0_on_j2_segment s) eqn:Eon; [| exact Hs].
    destruct (Qeq_bool (sim_time_car0_exits_j2 s) (-1)); [| exact Hs].
    destruct Hs as [(Hoff & _)|(_ & Hge & _)]; [congruence |].
    right. simpl. auto.
Qed.

Lemma finalize_traversal_sign (s : j2_state) :
  j2_consistent s -> finalize_traversal s = -1 \/ 0 <= finalize_traversal s.
Proof.
  intros Hs. unfold finalize_traversal.
  destruct (Qeq_bool (sim_time_car0_enters_j2 s) (-1)); simpl; [by left |].
  destruct (Qeq_bool (sim_time_car0_exits_j2 s) (-1)) eqn:Ex; simpl; [by left |].
  destruct Hs as [(_ & _ & Hx)|(_ & Hge & [Hx|Hle])].
  - rewrite Hx in Ex. discriminate.
  - rewrite Hx in Ex. discriminate.
  - right. lra.
Qed.

Lemma track_j2_enters (lane : string) (t : Q) (s : j2_state) :
  (track_j2 lane t s = s)
  \/ (car0_on_j2_segment s = false /\ sim_time_car0_enters_j2 (track_j2 lane t s) = t)
  \/ (car0_on_j2_segment s = true
      /\ car0_on_j2_segment (track_j2 lane t s) = true
      /\ sim_time_car0_enters_j2 (track_j2 lane t s) = sim_time_car0_enters_j2 s).
Proof.
  unfold track_j2. destruct (String.eqb lane J2_INTERNAL_LANE_ID).
  - destruct (car0_on_j2_segment s) eqn:Eon; simpl; auto.
  - destruct (car0_on_j2_segment s) eqn:Eon; [| auto].
    destruct (Qeq_bool (sim_time_car0_exits_j2 s) (-1)); simpl; auto.
Qed.

Lemma car_block_cases (a : step_answers) (t : Q) (st : run_state) :
  fst (car_block a t st) = st
  \/ (exists pos,
        ans_car_listed a = Returns true
        /\ fst (car_block a t st)
           = mk_run (flags st) (j2 st) (append_car (new_point t pos "car_0") (data st)))
  \/ (exists pos lane,
        ans_car_listed a = Returns true
        /\ fst (car_block a t st)
           = mk_run (flags st) (track_j2 lane t (j2 st))
               (append_car (new_point t pos "car_0") (data st))).
Proof.
  unfold car_block. rewrite except_traci_fst.
  destruct (ans_car_listed a) as [[]|e]; simpl; auto.
  destruct (ans_car_getPosition a) as [pos|e]; simpl; auto.
  destruct (ans_car_getLaneID a) as [lane|e]; simpl; eauto 6.
Qed.

Lemma ped_block_cases (listed : call bool) (position : call (Q * Q))
    (append : point_dict -> collected -> collected) (name : string) (t : Q)
    (st : run_state) :
  fst (ped_block listed position append name t st) = st
  \/ exists pos,
       fst (ped_block listed position append name t st)
       = mk_run (flags st) (j2 st) (append (new_point t pos name) (data st)).
Proof.
  unfold ped_block. rewrite except_traci_fst.
  destruct listed as [[]|e]; simpl; auto.
  destruct position as [pos|e]; simpl; eauto.
Qed.

Lemma run_step_j2_invariant (script : nat -> step_answers) (n : nat) (st : run_state) :
  times_ordered script ->
  j2_invariant script n st ->
  j2_invariant script n (fst (run_step n (script n) st)).
Proof.
  intros Hord. apply run_step_preserves.
  - intros st' f H. exact H.
  - intros st' t Ht [Hc Hfut].
    assert (Hkeep : forall d, j2_invariant script n (mk_run (flags st') (j2 st') d))
      by (intros d; by split).
    destruct (car_block_cases (script n) t st') as [->|[(pos & _ & ->)|(pos & lane & _ & ->)]];
      [by split | apply Hkeep |].
    destruct (Hord n n t t (le_n n) Ht Ht) as [Ht0 _].
    split; simpl.
    + apply track_j2_consistent; [exact Ht0 | | exact Hc].
      intros Hon. by apply (Hfut Hon n).
    + intros Hon j tj Hj Htj.
      destruct (track_j2_enters lane t (j2 st')) as [E|[(_ & E)|(Hon' & _ & E)]].
      * rewrite E in *. by apply (Hfut Hon j).
      * rewrite E. by destruct (Hord n j t tj Hj Ht Htj).
      * rewrite E. by apply (Hfut Hon' j).
  - intros st' t H.
    by destruct (ped_block_cases (ans_ped1_listed (script n)) (ans_ped1_getPosition (script n))
                   append_ped1 "ped_1" t st') as [->|(pos & ->)].
  - intros st' t H.
    by destruct (ped_block_cases (ans_ped2_listed (script n)) (ans_ped2_getPosition (script n))
                   append_ped2 "ped_2" t st') as [->|(pos & ->)].
Qed.

Section RunFacts.

Variable SA : bool.
Variable sc : Q * Q -> polygon -> bool.
Variable PCA : bool.

Lemma degraded_triple (e : traci_exn) (c : collected) :
  r_pet1 (degraded e c) = PInf /\ r_pet2 (degraded e c) = PInf
  /\ r_traversal (degraded e c) = -1.
Proof. by destruct e. Qed.

(** The traversal time [run_body] returns is the measured one or the
    sentinel. *)
Lemma run_body_traversal (script : nat -> step_answers) (area1 area2 : polygon) :
  r_traversal (run_body SA sc PCA script area1 area2) = -1
  \/ (snd (run_steps script (seq 0 num_simulation_steps) initial_run_state) = None
      /\ r_traversal (run_body SA sc PCA script area1 area2)
         = finalize_traversal
             (j2 (fst (run_steps script (seq 0 num_simulation_steps) initial_run_state)))).
Proof.
  unfold run_body.
  destruct (run_steps script (seq 0 num_simulation_steps) initial_run_state) as [st [e|]].
  - left. apply degraded_triple.
  - simpl. destruct PCA; [| by right].
    destruct (pet_if_both SA sc _ _ _ area1) as [h1 [pet1|x]]; [| by left].
    destruct (pet_if_both SA sc h1 _ _ area2) as [h2 [pet2|x]]; [by right | by left].
Qed.

(** X14. With simulation times that are not negative and do not
    decrease, the traversal time a run returns is the sentinel -1.0 or
    not negative: the exit is recorded only after the entry.  So the
    optimizer's test [traversal_time >= 0] separates measured times from
    the sentinel. *)
Theorem traversal_time_sign (start : call unit) (script : nat -> step_answers)
    (close : call unit) (area1 area2 : polygon) (r : run_result) :
  times_ordered script ->
  execute_single_sumo_run SA sc PCA start script close area1 area2 = Returned r ->
  r_traversal r = -1 \/ 0 <= r_traversal r.
Proof.
  intros Hord. unfold execute_single_sumo_run.
  destruct close as [u|e]; [| discriminate]. intros [= <-].
  destruct start as [u'|e]; [| left; apply degraded_triple].
  destruct (run_body_traversal script area1 area2) as [->|[_ ->]]; [by left |].
  apply finalize_traversal_sign.
  destruct (run_steps_preserves (j2_invariant script) script
              (seq 0 num_simulation_steps) initial_run_state 0) as (m & _ & Hinv & _).
  - intros i st _. by apply run_step_j2_invariant.
  - intros i j st Hij [Hc Hfut]. split; [exact Hc |].
    intros Hon k t Hk. apply (Hfut Hon). lia.
  - intros i _. lia.
  - apply seq_sorted.
  - split; [by left | discriminate].
  - exact Hinv.
Qed.

End RunFacts.

(** *** Exceptions that reach the outer handlers *)

Lemma run_steps_interrupted (script : nat -> step_answers) (steps : list nat)
    (st : run_state) (i : nat) :
  In i steps ->
  (forall st', snd (run_step i (script i) st') <> None) ->
  snd (run_steps script steps st) <> None.
Proof.
  intros Hin Hthrows. revert st.
  induction steps as [|j rest IH]; intros st; [destruct Hin |].
  simpl. destruct (run_step j (script j) st) as [st1 [e|]] eqn:Ej; simpl; [discriminate |].
  destruct Hin as [->|Hin]; [| by apply IH].
  specialize (Hthrows st). rewrite Ej in Hthrows. by destruct Hthrows.
Qed.

Section RunOutcomes.

Variable SA : bool.
Variable sc : Q * Q -> polygon -> bool.
Variable PCA : bool.

Lemma run_body_interrupted (script : nat -> step_answers) (area1 area2 : polygon)
    (i : nat) :
  (i < num_simulation_steps)%nat ->
  ~ returns (ans_getTime (script i)) \/ ~ returns (ans_simulationStep (script i)) ->
  r_pet1 (run_body SA sc PCA script area1 area2) = PInf
  /\ r_pet2 (run_body SA sc PCA script area1 area2) = PInf
  /\ r_traversal (run_body SA sc PCA script area1 area2) = -1.
Proof.
  intros Hi Hthrow. unfold run_body.
  pose proof (run_steps_interrupted script (seq 0 num_simulation_steps)
                initial_run_state i) as Hint.
  destruct (run_steps script (seq 0 num_simulation_steps) initial_run_state) as [st [e|]];
    [apply degraded_triple |].
  exfalso. apply Hint; [apply in_seq; lia | | reflexivity].
  intros st'. unfold run_step.
  destruct (ans_getTime (script i)) as [t|e]; [| discriminate].
  destruct (ans_simulationStep (script i)) as [u''|e]; [| discriminate].
  destruct Hthrow as [H|H]; by destruct H.
Qed.

(** X15. A failed launch, or a failure of [getTime] or [simulationStep]
    at any of the 200 steps, makes the run return (inf, inf, -1.0): the
    PET values are never computed and a traversal time measured before
    the failure is discarded. *)
Theorem failure_degrades_run (start : call unit) (script : nat -> step_answers)
    (close : call unit) (area1 area2 : polygon) (r : run_result) :
  ~ returns start
  \/ (exists i, (i < num_simulation_steps)%nat
                /\ (~ returns (ans_getTime (script i))
                    \/ ~ returns (ans_simulationStep (script i)))) ->
  execute_single_sumo_run SA sc PCA start script close area1 area2 = Returned r ->
  r_pet1 r = PInf /\ r_pet2 r = PInf /\ r_traversal r = -1.
Proof.
  intros Hfail. unfold execute_single_sumo_run.
  destruct close as [u|e]; [| discriminate]. intros [= <-].
  destruct start as [u'|e]; [| apply degraded_triple].
  destruct Hfail as [Hs|(i & Hi & Hthrow)]; [by destruct Hs |].
  by apply (run_body_interrupted script area1 area2 i).
Qed.

(** *** A vehicle that never appears *)

Lemma never_listed_step (i : nat) (a : step_answers) (st : run_state) :
  ans_car_listed a <> Returns true ->
  car0_traj (data st) = [] /\ j2 st = mk_j2 (-1) (-1) false ->
  car0_traj (data (fst (run_step i a st))) = []
  /\ j2 (fst (run_step i a st)) = mk_j2 (-1) (-1) false.
Proof.
  intros Hnever. apply (run_step_preserves
    (fun st => car0_traj (data st) = [] /\ j2 st = mk_j2 (-1) (-1) false)).
  - intros st' f H. exact H.
  - intros st' t _ H.
    destruct (car_block_cases a t st') as [->|[(pos & Hl & _)|(pos & lane & Hl & _)]];
      [exact H | congruence | congruence].
  - intros st' t H.
    by destruct (ped_block_cases (ans_ped1_listed a) (ans_ped1_getPosition a)
                   append_ped1 "ped_1" t st') as [->|(pos & ->)].
  - intros st' t H.
    by destruct (ped_block_cases (ans_ped2_listed a) (ans_ped2_getPosition a)
                   append_ped2 "ped_2" t st') as [->|(pos & ->)].
Qed.

Lemma run_body_without_vehicle (script : nat -> step_answers) (area1 area2 : polygon) :
  (forall i, ans_car_listed (script i) <> Returns true) ->
  r_pet1 (run_body SA sc PCA script area1 area2) = PInf
  /\ r_pet2 (run_body SA sc PCA script area1 area2) = PInf
  /\ r_traversal (run_body SA sc PCA script area1 area2) = -1
  /\ r_car0 (run_body SA sc PCA script area1 area2) = [].
Proof.
  intros Hnever. unfold run_body.
  destruct (run_steps_preserves
              (fun _ st => car0_traj (data st) = [] /\ j2 st = mk_j2 (-1) (-1) false)
              script (seq 0 num_simulation_steps) initial_run_state 0)
    as (m & _ & Hcar & Hj2).
  - intros i st _. by apply never_listed_step.
  - auto.
  - intros i _. lia.
  - apply seq_sorted.
  - by split.
  - destruct (run_steps script (seq 0 num_simulation_steps) initial_run_state)
      as [st [e|]]; simpl in *.
    + rewrite <- Hcar. destruct e; simpl; rewrite ?Hcar; auto.
    + rewrite Hcar, Hj2. by destruct PCA.
Qed.

(** X16. If car_0 is never listed during the run, the run returns
    (inf, inf, -1.0) with an empty vehicle trajectory, whatever the
    pedestrians do: the same values as a failed run. *)
Theorem absent_vehicle_looks_degraded (start : call unit) (script : nat -> step_answers)
    (close : call unit) (area1 area2 : polygon) (r : run_result) :
  (forall i, ans_car_listed (script i) <> Returns true) ->
  execute_single_sumo_run SA sc PCA start script close area1 area2 = Returned r ->
  r_pet1 r = PInf /\ r_pet2 r = PInf /\ r_traversal r = -1 /\ r_car0 r = [].
Proof.
  intros Hnever. unfold execute_single_sumo_run.
  destruct close as [u|e]; [| discriminate]. intros [= <-].
  destruct start as [u'|e]; [| by destruct e].
  by apply run_body_without_vehicle.
Qed.

End RunOutcomes.

(** *** Runs that complete *)

Lemma and_then_snd {S} (r : interrupted S) (k : S -> interrupted S) :
  snd r = None -> (forall st, snd (k st) = None) -> snd (and_then r k) = None.
Proof. destruct r as [st [e|]]; simpl; [discriminate | auto]. Qed.

Lemma first_thrown_quiet (commands : list (call unit)) :
  Forall at_most_traci commands ->
  first_thrown commands = None \/ first_thrown commands = Some TraCIException.
Proof.
  induction 1 as [|[u|e] rest Hc _ IH]; simpl; auto. simpl in Hc. subst e. auto.
Qed.

Lemma speed_block_quiet (step : nat) (listed : call bool) (commands : list (call unit))
    (attempted : bool) :
  at_most_traci listed -> Forall at_most_traci commands ->
  snd (speed_block step listed commands attempted) = None.
Proof.
  intros Hl Hc. unfold speed_block.
  destruct (negb attempted && (step <? MAX_ENTITY_WAIT_STEPS)%nat); [| reflexivity].
  destruct listed as [[]|e]; simpl in *; [| reflexivity | by subst e].
  by destruct (first_thrown_quiet commands Hc) as [->| ->].
Qed.

Lemma car_block_quiet (a : step_answers) (t : Q) (st : run_state) :
  at_most_traci (ans_car_listed a) -> at_most_traci (ans_car_getPosition a) ->
  at_most_traci (ans_car_getLaneID a) ->
  snd (car_block a t st) = None.
Proof.
  intros H1 H2 H3. unfold car_block.
  destruct (ans_car_listed a) as [[]|e]; simpl in *; [| reflexivity | by subst e].
  destruct (ans_car_getPosition a) as [pos|e]; simpl in *; [| by subst e].
  destruct (ans_car_getLaneID a) as [lane|e]; simpl in *; [reflexivity | by subst e].
Qed.

Lemma ped_block_quiet (listed : call bool) (position : call (Q * Q))
    (append : point_dict -> collected -> collected) (name : string) (t : Q)
    (st : run_state) :
  at_most_traci listed -> at_most_traci position ->
  snd (ped_block listed position append name t st) = None.
Proof.
  intros H1 H2. unfold ped_block.
  destruct listed as [[]|e]; simpl in *; [| reflexivity | by subst e].
  destruct position as [pos|e]; simpl in *; [reflexivity | by subst e].
Qed.

Lemma run_step_quiet (step : nat) (a : step_answers) (st : run_state) :
  quiet_step a -> snd (run_step step a st) = None.
Proof.
  intros (Ht & Hs & Q1 & Q2 & Q3 & Q4 & Q5 & Q6 & Q7 & Q8 & Q9 & Q10 & Q11 & Q12 & Q13 & Q14).
  unfold run_step.
  destruct (ans_getTime a) as [t|e]; [| destruct Ht].
  destruct (ans_simulationStep a) as [u|e]; [| destruct Hs].
  apply and_then_snd.
  { pose proof (speed_block_quiet step (ans_car_listed_for_speed a)
                  [ans_car_setSpeedMode a; ans_car_setSpeed a]
                  (car0_speed_set_attempted (flags st)) Q1) as H.
    destruct (speed_block _ _ _ _) as [f e]. simpl in *. apply H. by repeat constructor. }
  intros st1. apply and_then_snd.
  { pose proof (speed_block_quiet step (ans_ped1_listed_for_speed a)
                  [ans_ped1_setSpeed a] (ped1_speed_set_attempted (flags st1)) Q4) as H.
    destruct (speed_block _ _ _ _) as [f e]. simpl in *. apply H. by repeat constructor. }
  intros st2. apply and_then_snd.
  { pose proof (speed_block_quiet step (ans_ped2_listed_for_speed a)
                  [ans_ped2_setSpeed a] (ped2_speed_set_attempted (flags st2)) Q6) as H.
    destruct (speed_block _ _ _ _) as [f e]. simpl in *. apply H. by repeat constructor. }
  intros st3. apply and_then_snd; [by apply car_block_quiet |].
  intros st4. apply and_then_snd; [by apply ped_block_quiet |].
  intros st5. by apply ped_block_quiet.
Qed.

Lemma run_steps_quiet (script : nat -> step_answers) (steps : list nat) (st : run_state) :
  (forall i, In i steps -> quiet_step (script i)) ->
  snd (run_steps script steps st) = None.
Proof.
  revert st. induction steps as [|i rest IH]; intros st Hq; [reflexivity |].
  simpl. apply and_then_snd.
  - apply run_step_quiet, Hq. by left.
  - intros st'. apply IH. intros j Hj. apply Hq. by right.
Qed.

Lemma new_point_well_formed (h : heap) (n : loc) (t : Q) (pos : Q * Q) (name : string) :
  is_malformed (<[n := new_point t pos name]> h) (Rec n) = false.
Proof. unfold is_malformed. by rewrite fn_lookup_insert. Qed.

Lemma is_malformed_other (h : heap) (n l : loc) (d : point_dict) :
  l <> n -> is_malformed (<[n := d]> h) (Rec l) = is_malformed h (Rec l).
Proof. intros Hne. unfold is_malformed. by rewrite fn_lookup_insert_ne. Qed.

Lemma is_malformed_same (h h' : heap) (e : element) :
  same_coords h h' -> is_malformed h' e = is_malformed h e.
Proof.
  intros Hsame. destruct e as [l|v]; [| reflexivity].
  unfold is_malformed. by destruct (Hsame l) as (-> & -> & ->).
Qed.

(** Appending a fresh dictionary to any of the three lists keeps the
    collected data well-formed. *)
Lemma append_well_collected (c : collected) (t : Q) (pos : Q * Q) (name : string) :
  well_collected c ->
  well_collected (append_car (new_point t pos name) c)
  /\ well_collected (append_ped1 (new_point t pos name) c)
  /\ well_collected (append_ped2 (new_point t pos name) c).
Proof.
  intros Hc.
  assert (Hold : forall e, e ∈ car0_traj c ++ ped1_traj c ++ ped2_traj c ->
            exists l, e = Rec l /\ (l < S (next_loc c))%nat
              /\ is_malformed (<[next_loc c := new_point t pos name]> (store c)) (Rec l)
                 = false).
  { intros e He. destruct (Hc e He) as (l & -> & Hl & Hw). exists l.
    split; [reflexivity |]. split; [lia |]. rewrite is_malformed_other by lia. exact Hw. }
  assert (Hnew : exists l, Rec (next_loc c) = Rec l /\ (l < S (next_loc c))%nat
            /\ is_malformed (<[next_loc c := new_point t pos name]> (store c)) (Rec l)
               = false).
  { exists (next_loc c). split; [reflexivity |]. split; [lia |].
    apply new_point_well_formed. }
  repeat split; intros e He; simpl in He;
    rewrite ?elem_of_app, ?list_elem_of_singleton in He;
    (assert (Hcases : e = Rec (next_loc c)
                      \/ e ∈ car0_traj c ++ ped1_traj c ++ ped2_traj c)
       by (rewrite ?elem_of_app; tauto));
    (destruct Hcases as [->|Hin]; [exact Hnew | by apply Hold]).
Qed.

Lemma run_step_well_collected (step : nat) (a : step_answers) (st : run_state) :
  well_collected (data st) -> well_collected (data (fst (run_step step a st))).
Proof.
  apply (run_step_preserves (fun st => well_collected (data st))).
  - intros st' f H. exact H.
  - intros st' t _ H.
    destruct (car_block_cases a t st') as [->|[(pos & _ & ->)|(pos & lane & _ & ->)]];
      [exact H | |]; by apply append_well_collected.
  - intros st' t H.
    destruct (ped_block_cases (ans_ped1_listed a) (ans_ped1_getPosition a)
                append_ped1 "ped_1" t st') as [->|(pos & ->)];
      [exact H | by apply append_well_collected].
  - intros st' t H.
    destruct (ped_block_cases (ans_ped2_listed a) (ans_ped2_getPosition a)
                append_ped2 "ped_2" t st') as [->|(pos & ->)];
      [exact H | by apply append_well_collected].
Qed.

Lemma run_steps_well_collected (script : nat -> step_answers) (steps : list nat)
    (st : run_state) :
  well_collected (data st) -> well_collected (data (fst (run_steps script steps st))).
Proof.
  revert st. induction steps as [|i rest IH]; intros st Hw; [exact Hw |].
  simpl. pose proof (run_step_well_collected i (script i) st Hw) as H1.
  destruct (run_step i (script i) st) as [st1 [e|]]; simpl in *; [exact H1 | by apply IH].
Qed.

Lemma well_collected_records (c : collected) :
  well_collected c ->
  forallb is_record (car0_traj c) = true /\ forallb is_record (ped1_traj c) = true
  /\ forallb is_record (ped2_traj c) = true.
Proof.
  intros Hc.
  assert (H : forall l, (forall e, e ∈ l -> e ∈ car0_traj c ++ ped1_traj c ++ ped2_traj c) ->
                        forallb is_record l = true).
  { intros l Hsub. apply forallb_forall. intros e He.
    apply list_elem_of_In, Hsub, Hc in He as (n & -> & _). reflexivity. }
  repeat split; apply H; intros e He; rewrite !elem_of_app; tauto.
Qed.

Section CompletedRuns.

Variable SA : bool.
Variable sc : Q * Q -> polygon -> bool.
Variable PCA : bool.

Lemma same_coords_trans (h1 h2 h3 : heap) :
  same_coords h1 h2 -> same_coords h2 h3 -> same_coords h1 h3.
Proof.
  intros H12 H23 l. destruct (H12 l) as (? & ? & ?), (H23 l) as (? & ? & ?).
  repeat split; congruence.
Qed.

Lemma calculate_pet_same_coords (h : heap) (veh ped : trajectory) (poly : polygon) :
  same_coords h (fst (calculate_pet SA sc h veh ped poly)).
Proof.
  intros l. rewrite calculate_pet_fst.
  destruct (decide _); [apply with_defaults_coords | done].
Qed.

(** On trajectories of records the guarded PET computation returns a
    value, which any store with the same coordinates reproduces. *)
Lemma pet_if_both_records (h : heap) (car ped : trajectory) (area : polygon) :
  forallb is_record car = true -> forallb is_record ped = true ->
  exists p, snd (pet_if_both SA sc h car ped area) = Ok p
    /\ same_coords h (fst (pet_if_both SA sc h car ped area))
    /\ (car = [] \/ ped = [] -> p = PInf)
    /\ (car <> [] -> ped <> [] ->
        forall h', same_coords h h' -> snd (calculate_pet SA sc h' car ped area) = Ok p).
Proof.
  intros Hc Hp. unfold pet_if_both.
  destruct car as [|c0 car]; [| destruct ped as [|p0 ped]].
  - exists PInf. repeat split; simpl; auto; done.
  - exists PInf. repeat split; simpl; auto; done.
  - assert (Hok : exists p, snd (calculate_pet SA sc h (c0 :: car) (p0 :: ped) area) = Ok p).
    { rewrite calculate_pet_records by assumption.
      destruct (get_entry_exit_times_total SA sc h (c0 :: car) area) as [[a b] ->].
      destruct (get_entry_exit_times_total SA sc h (p0 :: ped) area) as [[c d] ->].
      simpl. eauto. }
    destruct Hok as [p Hok]. exists p.
    split; [exact Hok |]. split; [apply calculate_pet_same_coords |].
    split; [intros [|]; discriminate |].
    intros _ _ h' Hsame. by rewrite (calculate_pet_snd_same SA sc h h').
Qed.

(** X17. A run without failures keeps what it measured.  When the
    launch works and at every step [getTime] and [simulationStep] return
    and no other call raises anything but a TraCIException, the run
    returns the traversal time as measured: the PET computation cannot
    raise on the collected trajectories, whose samples are all records
    with 'time', 'x' and 'y'.  Each returned PET is [calculate_pet] of
    the returned trajectories when the calculator is available and both
    are not empty, and [+infinity] otherwise. *)
Theorem completed_run_keeps_measurement (script : nat -> step_answers)
    (area1 area2 : polygon) :
  (forall i, (i < num_simulation_steps)%nat -> quiet_step (script i)) ->
  exists r,
    execute_single_sumo_run SA sc PCA (Returns tt) script (Returns tt) area1 area2
    = Returned r
    /\ r_traversal r
       = finalize_traversal
           (j2 (fst (run_steps script (seq 0 num_simulation_steps) initial_run_state)))
    /\ (forall e, e ∈ r_car0 r ++ r_ped1 r ++ r_ped2 r ->
                  is_record e = true /\ is_malformed (r_store r) e = false)
    /\ (PCA = true -> r_car0 r <> [] -> r_ped1 r <> [] ->
        snd (calculate_pet SA sc (r_store r) (r_car0 r) (r_ped1 r) area1) = Ok (r_pet1 r))
    /\ (PCA = true -> r_car0 r <> [] -> r_ped2 r <> [] ->
        snd (calculate_pet SA sc (r_store r) (r_car0 r) (r_ped2 r) area2) = Ok (r_pet2 r))
    /\ (PCA = false \/ r_car0 r = [] \/ r_ped1 r = [] -> r_pet1 r = PInf)
    /\ (PCA = false \/ r_car0 r = [] \/ r_ped2 r = [] -> r_pet2 r = PInf).
Proof.
  intros Hquiet. unfold execute_single_sumo_run, run_body.
  pose proof (run_steps_quiet script (seq 0 num_simulation_steps) initial_run_state) as Hnone.
  pose proof (run_steps_well_collected script (seq 0 num_simulation_steps)
                initial_run_state) as Hwell.
  destruct (run_steps script (seq 0 num_simulation_steps) initial_run_state) as [st oe].
  cbn [fst snd] in Hnone, Hwell. rewrite Hnone.
  2: { intros i Hi. apply Hquiet. apply in_seq in Hi. lia. }
  assert (Hw : well_collected (data st)).
  { apply Hwell. intros e He. simpl in He. by apply elem_of_nil in He. }
  clear Hwell Hnone.
  destruct (well_collected_records _ Hw) as (Rc & R1 & R2).
  assert (Hfinal : forall h', same_coords (store (data st)) h' ->
            forall e, e ∈ car0_traj (data st) ++ ped1_traj (data st) ++ ped2_traj (data st) ->
                      is_record e = true /\ is_malformed h' e = false).
  { intros h' Hsame e He. destruct (Hw e He) as (l & -> & _ & Hm).
    split; [reflexivity |]. by rewrite (is_malformed_same (store (data st)) h'). }
  destruct PCA.
  - destruct (pet_if_both_records (store (data st)) (car0_traj (data st))
                (ped1_traj (data st)) area1 Rc R1) as (p1 & E1 & S1 & I1 & C1).
    destruct (pet_if_both SA sc (store (data st)) (car0_traj (data st))
                (ped1_traj (data st)) area1) as [h1 r1]. simpl in E1, S1. subst r1.
    destruct (pet_if_both_records h1 (car0_traj (data st))
                (ped2_traj (data st)) area2 Rc R2) as (p2 & E2 & S2 & I2 & C2).
    destruct (pet_if_both SA sc h1 (car0_traj (data st))
                (ped2_traj (data st)) area2) as [h2 r2]. simpl in E2, S2. subst r2.
    eexists. split; [reflexivity |]. simpl.
    split; [reflexivity |].
    split; [apply Hfinal; by apply (same_coords_trans _ h1) |].
    split; [intros _ Hc H1; apply C1; auto; by apply (same_coords_trans _ h1) |].
    split; [intros _ Hc H2; by apply C2 |].
    split; [intros [|]; [discriminate | by apply I1] |].
    intros [|]; [discriminate | by apply I2].
  - eexists. split; [reflexivity |]. simpl.
    split; [reflexivity |].
    split; [apply Hfinal; by intros l |].
    repeat split; intros; try discriminate; reflexivity.
Qed.

End CompletedRuns.

(** *** The optimizer over runs that all come back degraded *)

Lemma filter_none {A : Type} (f : A -> bool) (l : list A) :
  (forall a, In a l -> f a = false) -> List.filter f l = [].
Proof.
  induction l as [|a l IH]; intros Hall; [reflexivity |]. simpl.
  rewrite (Hall a (or_introl eq_refl)). apply IH. intros b Hb. apply Hall. by right.
Qed.

Lemma degraded_candidate (sim : nat -> Q -> pet * pet * Q) (counter : nat) (av_speed : Q) :
  (forall k, sim k av_speed = (PInf, PInf, -1)) ->
  (evaluate_candidate sim counter av_speed).2 = (av_speed, 5 # 5, -1).
Proof.
  intros Hsim. rewrite evaluate_candidate_eq.
  assert (Hmet : length (met_runs sim counter av_speed) = 5%nat).
  { unfold met_runs.
    rewrite (proj2 (filter_length_all _ (run_numbers counter))).
    - unfold run_numbers. by rewrite length_seq.
    - intros k _. by rewrite Hsim. }
  assert (Hvalid : valid_traversals sim counter av_speed = []).
  { apply filter_none. intros t Ht. apply in_map_iff in Ht as (k & <- & _).
    by rewrite Hsim. }
  by rewrite Hmet, Hvalid.
Qed.

(** X18. When every run comes back as (inf, inf, -1.0), as it does when
    the simulator cannot be launched or the vehicle never appears, the
    optimizer still reports an optimal speed: every candidate has
    probability 1 and an undefined metric, so the largest speed, 15 m/s,
    is reported with probability 1 and the traversal time -1.0. *)
Theorem optimizer_on_degraded_runs (SA : bool) (sc : Q * Q -> polygon -> bool)
    (PCA : bool) (sim : nat -> Q -> pet * pet * Q) :
  (forall k av_speed, exists start script close area1 area2 r,
      (~ returns start \/ forall i, ans_car_listed (script i) <> Returns true)
      /\ execute_single_sumo_run SA sc PCA start script close area1 area2 = Returned r
      /\ sim k av_speed = (r_pet1 r, r_pet2 r, r_traversal r)) ->
  run_optimizer true sim = OptimalFound (30 # 2) (Fin (-1)) (5 # 5).
Proof.
  intros Hruns.
  assert (Hsim : forall k av_speed, sim k av_speed = (PInf, PInf, -1)).
  { intros k v.
    destruct (Hruns k v) as (start & script & close & a1 & a2 & r & Hwhy & Hrun & ->).
    revert Hrun. unfold execute_single_sumo_run.
    destruct close as [u|e]; [| discriminate]. intros [= <-].
    destruct start as [u'|e].
    - destruct Hwhy as [Hstart|Hnever]; [by destruct Hstart |].
      by destruct (run_body_without_vehicle SA sc PCA script a1 a2 Hnever)
        as (-> & -> & -> & _).
    - by destruct e. }
  unfold run_optimizer. rewrite optimization_summary_entries.
  rewrite !degraded_candidate by auto. reflexivity.
Qed.

(** ** Instances of the further properties *)

Lemma never_inside_no_interval_witness :
  _get_entry_exit_times false no_library scenario_store [Rec 0; Rec 2] encroachment_area
  = Ok (None, None).
Proof.
  apply (never_inside_no_interval false no_library scenario_store [Rec 0; Rec 2]
           encroachment_area).
  repeat constructor; eexists _, _; split; reflexivity.
Defined.

Lemma first_entry_first_exit_witness :
  _get_entry_exit_times false no_library scenario_store vehicle_traj1 encroachment_area
  = Ok (Some ((0 + 1) / 2), Some ((1 + 2) / 2)).
Proof.
  refine (first_entry_first_exit false no_library scenario_store encroachment_area
            [Rec 0] (Rec 1) [] (Rec 2) [] _ _ _ _).
  - repeat constructor; eexists _, _; split; reflexivity.
  - eexists _, _; split; reflexivity.
  - constructor.
  - eexists _, _; split; reflexivity.
Defined.

Lemma inside_until_the_end_witness :
  _get_entry_exit_times false no_library scenario_store [Rec 0; Rec 1] encroachment_area
  = Ok (Some ((0 + 1) / 2), Some 1).
Proof.
  refine (inside_until_the_end false no_library scenario_store encroachment_area
            [Rec 0] (Rec 1) [] _ _ _).
  - repeat constructor; eexists _, _; split; reflexivity.
  - eexists _, _; split; reflexivity.
  - constructor.
Defined.

Lemma instant_inside_interval_gives_zero_witness :
  snd (calculate_pet false no_library scenario_store [Rec 4] pedestrian_traj1
         encroachment_area) = Ok (Fin 0).
Proof.
  apply (instant_inside_interval_gives_zero false no_library scenario_store
           [Rec 4] pedestrian_traj1 encroachment_area 4 4 (7 # 2) (9 # 2));
    try reflexivity.
  - vm_compute. intros H. discriminate H.
Defined.

Lemma manual_ray_casting_rectangle_witness :
  manual_ray_casting (-65 # 10, 285 # 10)
    (rectangle (-762 # 100) (2746 # 100) (-539 # 100) (2946 # 100)) = Ok true.
Proof.
  destruct (manual_ray_casting_rectangle (-762 # 100) (2746 # 100) (-539 # 100)
              (2946 # 100) (-65 # 10) (285 # 10)) as (b & Hb & Hiff).
  - discriminate.
  - discriminate.
  - rewrite Hb. f_equal. apply Hiff. repeat split; discriminate.
Defined.

Lemma crossing_answers_ordered : times_ordered crossing_answers.
Proof.
  intros i j ti tj Hij [= <-] [= <-]. split.
  - change 0 with (inject_Z 0). rewrite <- Zle_Qle. lia.
  - rewrite <- Zle_Qle. lia.
Defined.

Lemma crossing_answers_quiet (i : nat) : quiet_step (crossing_answers i).
Proof. repeat split. Defined.

Lemma traversal_time_sign_witness :
  let r := run_body false no_library true crossing_answers
             encroachment_area encroachment_area in
  execute_single_sumo_run false no_library true (Returns tt) crossing_answers (Returns tt)
    encroachment_area encroachment_area = Returned r
  /\ (r_traversal r = -1 \/ 0 <= r_traversal r).
Proof.
  intros r. split; [reflexivity |].
  apply (traversal_time_sign false no_library true (Returns tt) crossing_answers (Returns tt)
           encroachment_area encroachment_area r);
    [exact crossing_answers_ordered | reflexivity].
Defined.

Lemma failure_degrades_run_witness :
  exists r,
    execute_single_sumo_run false no_library true (Throws FileNotFoundError)
      crossing_answers (Returns tt) encroachment_area encroachment_area = Returned r
    /\ r_pet1 r = PInf /\ r_pet2 r = PInf /\ r_traversal r = -1.
Proof.
  eexists. split; [reflexivity |].
  apply (failure_degrades_run false no_library true (Throws FileNotFoundError)
           crossing_answers (Returns tt) encroachment_area encroachment_area);
    [left; intros H; exact H | reflexivity].
Defined.

Lemma absent_vehicle_looks_degraded_witness :
  let r := run_body false no_library true (fun _ => idle_answers)
             encroachment_area encroachment_area in
  execute_single_sumo_run false no_library true (Returns tt) (fun _ => idle_answers)
    (Returns tt) encroachment_area encroachment_area = Returned r
  /\ r_pet1 r = PInf /\ r_pet2 r = PInf /\ r_traversal r = -1 /\ r_car0 r = [].
Proof.
  intros r. split; [reflexivity |].
  apply (absent_vehicle_looks_degraded false no_library true (Returns tt)
           (fun _ => idle_answers) (Returns tt) encroachment_area encroachment_area r);
    [intros i; discriminate | reflexivity].
Defined.

Lemma completed_run_keeps_measurement_witness :
  exists r,
    execute_single_sumo_run false no_library true (Returns tt) crossing_answers (Returns tt)
      encroachment_area encroachment_area = Returned r
    /\ r_traversal r == 2
    /\ (forall e, e ∈ r_car0 r -> is_malformed (r_store r) e = false).
Proof.
  destruct (completed_run_keeps_measurement false no_library true crossing_answers
              encroachment_area encroachment_area (fun i _ => crossing_answers_quiet i))
    as (r & Hrun & Htraversal & Hwell & _).
  exists r. split; [exact Hrun |].
  split.
  - rewrite Htraversal. vm_compute. reflexivity.
  - intros e He. apply Hwell. rewrite elem_of_app. by left.
Defined.

Lemma optimizer_on_degraded_runs_witness :
  run_optimizer true
    (fun _ _ =>
       match execute_single_sumo_run false no_library true (Throws FileNotFoundError)
               (fun _ => idle_answers) (Returns tt) encroachment_area encroachment_area with
       | Returned r => (r_pet1 r, r_pet2 r, r_traversal r)
       | Escaped _ => (PInf, PInf, -1)
       end)
  = OptimalFound (30 # 2) (Fin (-1)) (5 # 5).
Proof.
  apply (optimizer_on_degraded_runs false no_library true).
  intros k av_speed.
  eexists (Throws FileNotFoundError), (fun _ => idle_answers), (Returns tt),
    encroachment_area, encroachment_area, _.
  split; [left; intros H; exact H |]. split; reflexivity.
Defined.
